(** * Request matchers of the mux router (matcher.go)

    A shallow embedding of [matcher.go]: the path-template compiler
    [newPathWithVarsMatcher], the matcher variants with their [Match] and
    [Rank] methods, and the sortable collection [Matchers].

    Go strings are byte sequences: they are modelled as [list ascii].
    Indices are Go [int]s that stay between [0] and [len(path)], so they are
    modelled as [nat]; a run-time panic (index or slice out of range, nil
    dereference, [regexp.MustCompile] on a bad pattern) is [None]. *)

From Stdlib Require Import Ascii String.
From stdpp Require Import base option list strings gmap.

Local Open Scope list_scope.

(** ** Go strings *)

Abbreviation gostring := (list ascii).

(** [str "abc"] is the Go string literal ["abc"]. *)
Definition str (s : string) : gostring := list_ascii_of_string s.

(** [s[a:b]], [s[:b]] and [s[a:]]: Go panics unless [0 <= a <= b <= len(s)]. *)
Definition slice (s : gostring) (a b : nat) : option gostring :=
  if (a <=? b) && (b <=? length s) then Some (take (b - a) (drop a s)) else None.

Definition slice_to (s : gostring) (b : nat) : option gostring :=
  if b <=? length s then Some (take b s) else None.

Definition slice_from (s : gostring) (a : nat) : option gostring :=
  if a <=? length s then Some (drop a s) else None.

(** ** The template scanner of [newPathWithVarsMatcher] *)

(** [type variable struct { firstIndex int; lastIndex int }] *)
Record variable := mkVariable { firstIndex : nat; lastIndex : nat }.

(** [variable{}], the zero value. *)
Definition variable_zero : variable := mkVariable 0 0.

Definition numberKeyword : gostring := str ":number".
Definition stringKeyword : gostring := str ":string".
Definition numberFragment : gostring := str "([0-9]{1,})".
Definition stringFragment : gostring := str "([a-zA-Z]{1,})".

#[global] Arguments numberKeyword : simpl never.
#[global] Arguments stringKeyword : simpl never.
#[global] Arguments numberFragment : simpl never.
#[global] Arguments stringFragment : simpl never.

(** One iteration of the [for] loop, lines 123-141, at index [i].
    [char := string(path[i])] is compared with [":"] and ["/"]; a byte of
    value 128 or more becomes a two-byte string, so both comparisons are
    comparisons of the byte itself. *)
Definition loop_body (i : nat) (path : gostring) (vars : variable)
  : option (gostring * variable) :=
  char ← path !! i;
  if bool_decide (char = ":"%char) then
    Some (path, mkVariable i (lastIndex vars))
  else if negb (firstIndex vars =? 0)
          && (bool_decide (char = "/"%char) || (i =? length path - 1)) then
    let vars := mkVariable (firstIndex vars) i in
    let vars := if lastIndex vars =? length path - 1
                then mkVariable (firstIndex vars) (S (lastIndex vars))
                else vars in
    seg ← slice path (firstIndex vars) (lastIndex vars);
    if bool_decide (seg = numberKeyword) then
      pre ← slice_to path (firstIndex vars);
      post ← slice_from path (lastIndex vars);
      Some (pre ++ numberFragment ++ post, variable_zero)
    else if bool_decide (seg = stringKeyword) then
      pre ← slice_to path (firstIndex vars);
      post ← slice_from path (lastIndex vars);
      Some (pre ++ stringFragment ++ post, variable_zero)
    else Some (path, vars)
  else Some (path, vars).

(** The loop [for i := 0; i <= len(path)-1; i++], from index [i] on.  The
    bound is read again at every iteration, and [path] grows at a
    substitution, so the model carries fuel; [i <= len(path)-1] on Go's
    signed integers is [i < len(path)]. *)
Fixpoint scan_loop (fuel i : nat) (path : gostring) (vars : variable)
  : option (gostring * variable) :=
  if i <? length path then
    match fuel with
    | 0 => None
    | S fuel' =>
        '(path', vars') ← loop_body i path vars;
        scan_loop fuel' (S i) path' vars'
    end
  else Some (path, vars).

(** Every substitution consumes one colon and adds at most seven bytes. *)
Definition scan_fuel (path : gostring) : nat := 8 * length path.

(** The template after the scan (the value of [path] at line 144). *)
Definition rewrite_template (path : gostring) : option gostring :=
  fst <$> scan_loop (scan_fuel path) 0 path variable_zero.

(** The state after [k] iterations, for looking inside the loop. *)
Fixpoint scan_prefix (k i : nat) (path : gostring) (vars : variable)
  : option (nat * gostring * variable) :=
  match k with
  | 0 => Some (i, path, vars)
  | S k' =>
      if i <? length path then
        '(path', vars') ← loop_body i path vars;
        scan_prefix k' (S i) path' vars'
      else Some (i, path, vars)
  end.

(** *** The scan as the specification words it

    Section 4.6 of the specification, steps 1 to 6: the same iteration,
    except that the state is reset also after a token that is no keyword
    (step 6).  It is compared with [loop_body] below. *)
Definition loop_body_as_specified (i : nat) (path : gostring) (vars : variable)
  : option (gostring * variable) :=
  char ← path !! i;
  if bool_decide (char = ":"%char) then
    Some (path, mkVariable i (lastIndex vars))
  else if negb (firstIndex vars =? 0)
          && (bool_decide (char = "/"%char) || (i =? length path - 1)) then
    let first := firstIndex vars in
    let last := if i =? length path - 1 then S i else i in
    seg ← slice path first last;
    if bool_decide (seg = numberKeyword) then
      pre ← slice_to path first;
      post ← slice_from path last;
      Some (pre ++ numberFragment ++ post, variable_zero)
    else if bool_decide (seg = stringKeyword) then
      pre ← slice_to path first;
      post ← slice_from path last;
      Some (pre ++ stringFragment ++ post, variable_zero)
    else Some (path, variable_zero)
  else Some (path, vars).

Fixpoint scan_loop_as_specified (fuel i : nat) (path : gostring) (vars : variable)
  : option (gostring * variable) :=
  if i <? length path then
    match fuel with
    | 0 => None
    | S fuel' =>
        '(path', vars') ← loop_body_as_specified i path vars;
        scan_loop_as_specified fuel' (S i) path' vars'
    end
  else Some (path, vars).

Definition rewrite_template_as_specified (path : gostring) : option gostring :=
  fst <$> scan_loop_as_specified (scan_fuel path) 0 path variable_zero.

(** ** Go's [regexp] package, on a fragment of its syntax

    [regexp.MustCompile] and [Regexp.MatchString] belong to Go's standard
    library.  They are modelled on the fragment of the RE2 syntax that needs
    no Unicode tables: ASCII literals, escaped punctuation, bracket classes
    of ASCII ranges, capture groups, alternation, the repetitions
    [*], [+], [?], [{n}], [{n,}], [{n,m}] (greedy or lazy), and the anchors
    [^] and [$] (beginning and end of text: no flag is set).  Every operator
    of that fragment consumes whole ASCII bytes, so matching on bytes is
    matching on runes.  A pattern outside the fragment ([.], negated and
    named classes, [\d] and the other letter escapes, [(?...)] groups,
    bytes above 127) has no model: [parse] answers [None], as it does for
    the patterns the library rejects.  The library's limits on the size and
    the nesting depth of an expression are not modelled. *)

(** The operators of [regexp/syntax] that the fragment produces. *)
Inductive regex : Type :=
| EmptyMatch
| Literal (c : ascii)
| CharClass (ranges : list (ascii * ascii))
| BeginText
| EndText
| Capture (r : regex)
| Star (r : regex)
| Plus (r : regex)
| Quest (r : regex)
| Repeat (min : nat) (max : option nat) (r : regex)
| Concat (r1 r2 : regex)
| Alternate (r1 r2 : regex).

(** *** Matching *)

(** All the ways to cut [s] in two. *)
Fixpoint splits (s : gostring) : list (gostring * gostring) :=
  match s with
  | [] => [([], [])]
  | c :: s' => ([], s) :: map (λ p, (c :: p.1, p.2)) (splits s')
  end.

Definition in_range (c : ascii) (range : ascii * ascii) : bool :=
  (nat_of_ascii range.1 <=? nat_of_ascii c) && (nat_of_ascii c <=? nat_of_ascii range.2).

Definition in_class (ranges : list (ascii * ascii)) (c : ascii) : bool :=
  existsb (in_range c) ranges.

Section Iteration.
(** [m pre s post]: the iterated expression matches [s] when [pre] stands
    before it in the text and [post] after it. *)
Variable m : gostring → gostring → gostring → bool.

(** [acc ++ rest] is one or more matches in a row, the first of which
    starts with the non-empty [acc]. *)
Fixpoint star_walk (pre acc rest post : gostring) {struct rest} : bool :=
  match rest with
  | [] => m pre acc post
  | d :: rest' =>
      if (if m pre acc (rest ++ post)
          then star_walk (pre ++ acc) [d] rest' post else false)
      then true
      else star_walk pre (acc ++ [d]) rest' post
  end.

(** Zero or more matches in a row.  A match of the empty string adds
    nothing to an iteration, so every round takes at least one byte. *)
Definition star_match (pre s post : gostring) : bool :=
  match s with
  | [] => true
  | c :: s' => star_walk pre [c] s' post
  end.

(** Exactly [n] matches in a row. *)
Fixpoint exactly_match (n : nat) (pre s post : gostring) : bool :=
  match n with
  | 0 => bool_decide (s = [])
  | S n' =>
      existsb (λ p, if m pre p.1 (p.2 ++ post)
                    then exactly_match n' (pre ++ p.1) p.2 post
                    else false) (splits s)
  end.

(** At most [n] matches in a row. *)
Fixpoint upto_match (n : nat) (pre s post : gostring) : bool :=
  match n with
  | 0 => bool_decide (s = [])
  | S n' =>
      if bool_decide (s = []) then true
      else existsb (λ p, if m pre p.1 (p.2 ++ post)
                         then upto_match n' (pre ++ p.1) p.2 post
                         else false) (splits s)
  end.
End Iteration.

(** [matchb r pre s post]: [r] matches the piece [s] of the text
    [pre ++ s ++ post].  Conjunctions are written [if _ then _ else false]
    so that the second test runs only after the first succeeded. *)
Fixpoint matchb (r : regex) (pre s post : gostring) : bool :=
  match r with
  | EmptyMatch => bool_decide (s = [])
  | Literal c => bool_decide (s = [c])
  | CharClass ranges =>
      match s with
      | [c] => in_class ranges c
      | _ => false
      end
  | BeginText => bool_decide (s = [] ∧ pre = [])
  | EndText => bool_decide (s = [] ∧ post = [])
  | Capture r1 => matchb r1 pre s post
  | Star r1 => star_match (matchb r1) pre s post
  | Plus r1 =>
      existsb (λ p, if matchb r1 pre p.1 (p.2 ++ post)
                    then star_match (matchb r1) (pre ++ p.1) p.2 post
                    else false) (splits s)
  | Quest r1 => if bool_decide (s = []) then true else matchb r1 pre s post
  | Repeat min max r1 =>
      existsb (λ p, if exactly_match (matchb r1) min pre p.1 (p.2 ++ post)
                    then match max with
                         | None => star_match (matchb r1) (pre ++ p.1) p.2 post
                         | Some max =>
                             upto_match (matchb r1) (max - min) (pre ++ p.1) p.2 post
                         end
                    else false) (splits s)
  | Concat r1 r2 =>
      existsb (λ p, if matchb r1 pre p.1 (p.2 ++ post)
                    then matchb r2 (pre ++ p.1) p.2 post
                    else false) (splits s)
  | Alternate r1 r2 => if matchb r1 pre s post then true else matchb r2 pre s post
  end.

(** [r] matches some piece of [text]: the unanchored search of
    [MatchString]. *)
Definition search (r : regex) (text : gostring) : bool :=
  existsb (λ p, existsb (λ q, matchb r p.1 q.1 q.2) (splits p.2)) (splits text).

(** *** What matching means

    The matcher above is a program; this is the relation it decides.
    [iterate R n pre s post]: [s] is [n] pieces in a row, each in [R] at its
    place in the text. *)
Inductive iterate (R : gostring → gostring → gostring → Prop)
  : nat → gostring → gostring → gostring → Prop :=
| iterate_O pre post : iterate R 0 pre [] post
| iterate_S n pre s1 s2 post :
    R pre s1 (s2 ++ post) →
    iterate R n (pre ++ s1) s2 post →
    iterate R (S n) pre (s1 ++ s2) post.

Fixpoint matches (r : regex) (pre s post : gostring) : Prop :=
  match r with
  | EmptyMatch => s = []
  | Literal c => s = [c]
  | CharClass ranges => ∃ c, s = [c] ∧ in_class ranges c = true
  | BeginText => s = [] ∧ pre = []
  | EndText => s = [] ∧ post = []
  | Capture r1 => matches r1 pre s post
  | Star r1 => ∃ n, iterate (matches r1) n pre s post
  | Plus r1 => ∃ n, iterate (matches r1) (S n) pre s post
  | Quest r1 => s = [] ∨ matches r1 pre s post
  | Repeat min max r1 =>
      ∃ n, iterate (matches r1) (min + n) pre s post
           ∧ match max with
             | Some max => n ≤ max - min
             | None => True
             end
  | Concat r1 r2 =>
      ∃ s1 s2, s = s1 ++ s2
               ∧ matches r1 pre s1 (s2 ++ post)
               ∧ matches r2 (pre ++ s1) s2 post
  | Alternate r1 r2 => matches r1 pre s post ∨ matches r2 pre s post
  end.

(** *** Parsing ([regexp/syntax.Parse] with the flags of [regexp.Compile]) *)

(** [old] is a prefix of [s] ([strings.HasPrefix]). *)
Fixpoint is_prefix (old s : gostring) : bool :=
  match old, s with
  | [], _ => true
  | o :: old', c :: s' => if bool_decide (o = c) then is_prefix old' s' else false
  | _ :: _, [] => false
  end.

Definition is_digit (c : ascii) : bool :=
  (48 <=? nat_of_ascii c) && (nat_of_ascii c <=? 57).

Definition is_alnum (c : ascii) : bool :=
  is_digit c
  || ((65 <=? nat_of_ascii c) && (nat_of_ascii c <=? 90))
  || ((97 <=? nat_of_ascii c) && (nat_of_ascii c <=? 122)).

Definition is_ascii7 (c : ascii) : bool := nat_of_ascii c <? 128.

(** The bytes that stand for themselves in a pattern wherever they occur:
    ASCII, and none of [\ . + * ? ( ) | [ { ^ $]. *)
Definition is_meta (c : ascii) : bool :=
  existsb (Ascii.eqb c) (str "\.+*?()|[{^$").

Definition plain_char (c : ascii) : bool := is_ascii7 c && negb (is_meta c).

(** The leading run of digits and what follows it. *)
Fixpoint span_digits (s : gostring) : gostring * gostring :=
  match s with
  | c :: s' =>
      if is_digit c then (c :: (span_digits s').1, (span_digits s').2)
      else ([], s)
  | [] => ([], [])
  end.

Definition digits_value (ds : gostring) : N :=
  fold_left (λ n c, (n * 10 + (N_of_ascii c - 48))%N) ds 0%N.

(** [parseInt]: a decimal number without a leading zero. *)
Definition parseInt (s : gostring) : option (N * gostring) :=
  match span_digits s with
  | ([], _) => None
  | ("0"%char :: _ :: _, _) => None
  | (ds, rest) => Some (digits_value ds, rest)
  end.

(** The rest of [s] after its first byte, when that byte is [c]. *)
Definition eat (c : ascii) (s : gostring) : option gostring :=
  match s with
  | c' :: rest => if Ascii.eqb c' c then Some rest else None
  | [] => None
  end.

(** [parseRepeat]: [{min}], [{min,}] or [{min,max}]; anything else after a
    brace makes the brace a literal. *)
Definition parseRepeat (s : gostring) : option (N * option N * gostring) :=
  s1 ← eat "{" s;
  '(min, s2) ← parseInt s1;
  match eat "}" s2 with
  | Some rest => Some (min, Some min, rest)
  | None =>
      s3 ← eat "," s2;
      match eat "}" s3 with
      | Some rest => Some (min, None, rest)
      | None =>
          '(max, s4) ← parseInt s3;
          rest ← eat "}" s4;
          Some (min, Some max, rest)
      end
  end.

Inductive repetition : Type :=
| RepStar
| RepPlus
| RepQuest
| RepCount (min : N) (max : option N).

(** The repetition operator at the head of [s], if there is one. *)
Definition repetition_op (s : gostring) : option (repetition * gostring) :=
  match s with
  | "*"%char :: rest => Some (RepStar, rest)
  | "+"%char :: rest => Some (RepPlus, rest)
  | "?"%char :: rest => Some (RepQuest, rest)
  | "{"%char :: _ =>
      '(min, max, rest) ← parseRepeat s; Some (RepCount min max, rest)
  | _ => None
  end.

(** [repeatIsValid]: nested counted repetitions multiply to at most [n]. *)
Fixpoint repeatIsValid (re : regex) (n : nat) : bool :=
  match re with
  | Repeat min max r =>
      let m := default min max in
      if bool_decide (max = Some 0) then true
      else if n <? m then false
      else repeatIsValid r (if 0 <? m then n / m else n)
  | Capture r | Star r | Plus r | Quest r => repeatIsValid r n
  | Concat r1 r2 | Alternate r1 r2 => repeatIsValid r1 n && repeatIsValid r2 n
  | _ => true
  end.

Definition count_ok (min : N) (max : option N) : bool :=
  ((min <=? 1000)%N
   && match max with
      | Some max => (max <=? 1000)%N && (min <=? max)%N
      | None => true
      end).

(** The atom [a] with the repetition operator that follows it in [s], if
    any.  A [?] after the operator makes it lazy, which changes which match
    is preferred and not whether there is one; a second operator in a row is
    an error. *)
Definition apply_repetition (a : regex) (s : gostring)
  : option (regex * gostring) :=
  match repetition_op s with
  | None => Some (a, s)
  | Some (op, rest) =>
      let rest := default rest (eat "?" rest) in
      match repetition_op rest with
      | Some _ => None
      | None =>
          match op with
          | RepStar => Some (Star a, rest)
          | RepPlus => Some (Plus a, rest)
          | RepQuest => Some (Quest a, rest)
          | RepCount min max =>
              let re := Repeat (N.to_nat min) (N.to_nat <$> max) a in
              if count_ok min max
                 && (((N.to_nat min <? 2) && (default 0 (N.to_nat <$> max) <? 2))
                     || repeatIsValid re 1000)
              then Some (re, rest)
              else None
          end
      end
  end.

(** [parseClassChar]: one character of a bracket class. *)
Definition parseClassChar (s : gostring) : option (ascii * gostring) :=
  match s with
  | [] => None
  | "\"%char :: c :: rest =>
      if is_ascii7 c && negb (is_alnum c) then Some (c, rest) else None
  | "\"%char :: [] => None
  | c :: rest => if is_ascii7 c then Some (c, rest) else None
  end.

(** After the first character of an item: a dash that is not the last
    character of the class makes the item a range. *)
Definition range_follows (t : gostring) : bool :=
  match t with
  | c1 :: c2 :: _ => Ascii.eqb c1 "-" && negb (Ascii.eqb c2 "]")
  | _ => false
  end.

(** The items of a bracket class up to its closing bracket, which is a
    literal when it comes [first]. *)
Fixpoint parseClassItems (fuel : nat) (first : bool) (s : gostring)
  : option (list (ascii * ascii) * gostring) :=
  match fuel with
  | 0 => None
  | S fuel' =>
      match s with
      | [] => None
      | c :: rest =>
          if Ascii.eqb c "]" && negb first then Some ([], rest)
          else if is_prefix (str "[:") s then None
          else
            '(lo, t) ← parseClassChar s;
            if range_follows t then
              '(hi, t2) ← parseClassChar (drop 1 t);
              if nat_of_ascii hi <? nat_of_ascii lo then None
              else
                '(ranges, rest') ← parseClassItems fuel' false t2;
                Some ((lo, hi) :: ranges, rest')
            else
              '(ranges, rest') ← parseClassItems fuel' false t;
              Some ((lo, lo) :: ranges, rest')
      end
  end.

(** [parseClass], on what follows the opening bracket; a class that starts
    with [^] is negated. *)
Definition parseClass (s : gostring) : option (regex * gostring) :=
  if is_prefix (str "^") s then None
  else
    '(ranges, rest) ← parseClassItems (length s) true s;
    Some (CharClass ranges, rest).

Section Atoms.
(** The parser of what stands between two parentheses. *)
Variable parse_group : gostring → option (regex * gostring).

(** One atom.  A byte that is no operator stands for itself; [(?] opens a
    group with flags and [.] matches any character: both are outside the
    fragment; a repetition operator here has nothing to repeat; a brace
    that opens no well-formed repetition is a literal. *)
Definition parse_atom (s : gostring) : option (regex * gostring) :=
  match s with
  | [] => None
  | c :: rest =>
      if Ascii.eqb c "(" then
        if is_prefix (str "?") rest then None
        else
          '(r, rest') ← parse_group rest;
          rest'' ← eat ")" rest';
          Some (Capture r, rest'')
      else if Ascii.eqb c "[" then parseClass rest
      else if Ascii.eqb c "^" then Some (BeginText, rest)
      else if Ascii.eqb c "$" then Some (EndText, rest)
      else if Ascii.eqb c "\" then
        match rest with
        | c' :: rest' =>
            if is_ascii7 c' && negb (is_alnum c') then Some (Literal c', rest')
            else None
        | [] => None
        end
      else if Ascii.eqb c "{" then
        match parseRepeat s with
        | Some _ => None
        | None => Some (Literal c, rest)
        end
      else if plain_char c then Some (Literal c, rest)
      else None
  end.

(** The pieces of a concatenation, up to a bar, a closing parenthesis or
    the end of the pattern. *)
Fixpoint parse_concat (fuel : nat) (s : gostring)
  : option (list regex * gostring) :=
  match s with
  | [] => Some ([], [])
  | c :: _ =>
      if Ascii.eqb c "|" || Ascii.eqb c ")" then Some ([], s)
      else
        match fuel with
        | 0 => None
        | S fuel' =>
            '(a, rest) ← parse_atom s;
            '(piece, rest') ← apply_repetition a rest;
            '(pieces, rest'') ← parse_concat fuel' rest';
            Some (piece :: pieces, rest'')
        end
  end.
End Atoms.

Definition concat_of (pieces : list regex) : regex :=
  foldr Concat EmptyMatch pieces.

Fixpoint parse_alternation (fuel : nat) (s : gostring)
  : option (regex * gostring) :=
  match fuel with
  | 0 => None
  | S fuel' =>
      '(pieces, rest) ← parse_concat (parse_alternation fuel') (length s) s;
      match eat "|" rest with
      | Some rest' =>
          '(r, rest'') ← parse_alternation fuel' rest';
          Some (Alternate (concat_of pieces) r, rest'')
      | None => Some (concat_of pieces, rest)
      end
  end.

(** The whole pattern; a closing parenthesis left over is an error. *)
Definition parse (s : gostring) : option regex :=
  '(r, rest) ← parse_alternation (S (length s)) s;
  match rest with
  | [] => Some r
  | _ => None
  end.

(** [*regexp.Regexp]: the source text and the expression compiled from it. *)
Record Regexp := mkRegexp { expr : gostring; prog : regex }.

(** [regexp.MustCompile]: panics when the pattern does not parse. *)
Definition regexp_MustCompile (s : gostring) : option Regexp :=
  r ← parse s; Some (mkRegexp s r).

(** [re.MatchString(s)]: [s] contains a match of [re]. *)
Definition MatchString (re : Regexp) (s : gostring) : bool :=
  search (prog re) s.

(** A table of patterns, texts and expected answers is right. *)
Definition search_all (table : list (string * string * bool)) : bool :=
  forallb (λ row, match parse (str row.1.1) with
                  | Some r => Bool.eqb (search r (str row.1.2)) row.2
                  | None => false
                  end) table.

(** ** Go's [strings] package *)

(** The scan of [strings.Replace]: [skip] bytes are still part of the
    occurrence of [old] replaced last; [n] replacements are left, a negative
    [n] means no limit. *)
Fixpoint replace_scan (old new : gostring) (skip : nat) (n : Z) (s : gostring)
  : gostring :=
  match s with
  | [] => []
  | c :: s' =>
      match skip with
      | S skip' => replace_scan old new skip' n s'
      | 0 =>
          if negb (n =? 0)%Z && is_prefix old s
          then new ++ replace_scan old new (length old - 1) (n - 1)%Z s'
          else c :: replace_scan old new 0 n s'
      end
  end.

(** [strings.Replace(s, old, new, n)].  With an empty [old] the library
    cuts [s] at rune boundaries: that case is outside the model ([None]),
    and the source never asks for it. *)
Definition strings_Replace (s old new : gostring) (n : Z) : option gostring :=
  match old with
  | [] => None
  | _ => Some (replace_scan old new 0 n s)
  end.

Fixpoint gostring_ltb (a b : gostring) : bool :=
  match a, b with
  | _, [] => false
  | [], _ :: _ => true
  | x :: a', y :: b' =>
      if nat_of_ascii x <? nat_of_ascii y then true
      else if nat_of_ascii y <? nat_of_ascii x then false
      else gostring_ltb a' b'
  end.

(** [strings.Compare(a, b)]. *)
Definition strings_Compare (a b : gostring) : Z :=
  if bool_decide (a = b) then 0%Z
  else if gostring_ltb a b then (-1)%Z
  else 1%Z.

Definition ascii_lower (c : ascii) : ascii :=
  if (65 <=? nat_of_ascii c) && (nat_of_ascii c <=? 90)
  then ascii_of_nat (nat_of_ascii c + 32)
  else c.

(** ** Requests *)

(** [url.URL], the two fields the matchers read. *)
Record URL := mkURL { Scheme : gostring; Path : gostring }.

(** [http.Request]: [r.URL] is a pointer, which may be nil, and [r.Header]
    a [map[string][]string]. *)
Record Request := mkRequest {
  r_URL : option URL;
  r_Header : gmap gostring (list gostring)
}.

(** ** Method calls

    A method of a matcher runs on the matcher and on the pointer
    [r *http.Request] it receives: [req] is the request behind the pointer,
    or [None] when the pointer is nil.  The method returns a value together
    with the matcher and the request as it leaves them, or it panics. *)

Record world (T : Type) := mkWorld { self : T; req : option Request }.
Arguments mkWorld {T} _ _.
Arguments self {T} _.
Arguments req {T} _.

Definition action (T A : Type) : Type := world T → option (A * world T).

Definition act_ret {T A} (a : A) : action T A := λ w, Some (a, w).

Definition act_bind {T A B} (c : action T A) (k : A → action T B) : action T B :=
  λ w, match c w with
       | Some (a, w') => k a w'
       | None => None
       end.

Definition act_panic {T A} : action T A := λ _, None.

(** Following a pointer: a nil pointer panics. *)
Definition deref {T A} (p : option A) : action T A :=
  match p with
  | Some a => act_ret a
  | None => act_panic
  end.

(** Reading the receiver, and reading the request behind the pointer [r]
    (what [r.Header] and [r.URL] start with): a nil [r] panics. *)
Definition read_self {T} : action T T := λ w, Some (self w, w).
Definition read_request {T} : action T Request :=
  λ w, deref (req w) w.

(** Calling a Go function of type [func( *http.Request) bool] on the
    pointer.  Behind a pointer that is not nil the function finds a request:
    [on_request] gives its answer and the request as it leaves it, for it
    may write through the pointer, or [None] when it panics.  [on_nil] is
    what it does with a nil pointer: it answers, or it panics. *)
Definition call_func {T} (on_request : Request → option (bool * Request))
    (on_nil : option bool) : action T bool :=
  λ w, match req w with
       | Some r =>
           match on_request r with
           | Some (b, r') => Some (b, mkWorld (self w) (Some r'))
           | None => None
           end
       | None =>
           match on_nil with
           | Some b => Some (b, w)
           | None => None
           end
       end.

Notation "x <~ c ;; k" := (act_bind c (λ x, k))
  (at level 100, c at next level, right associativity).

(** ** The matchers *)

(** [const ( rankAny = iota; rankPath; rankScheme )] *)
Definition rankAny : Z := 0.
Definition rankPath : Z := 1.
Definition rankScheme : Z := 2.

(** [type Matcher interface { Match( *http.Request) bool; Rank() int }] *)
Class Matcher (T : Type) := {
  Match : action T bool;
  Rank : T → Z
}.

(** The comparison of a header value: an exact string or a compiled
    pattern. *)
Inductive comparison : Type :=
| compareString (s : gostring)
| compareRegexp (re : Regexp).

(** Modelled from the spec: [comparison] and its evaluation are declared in
    a file that is not part of the sources at hand; "a value that is either
    an exact string or a compiled pattern, evaluated against a candidate
    string". *)
Definition comparison_eval (c : comparison) (v : gostring) : bool :=
  match c with
  | compareString s => bool_decide (s = v)
  | compareRegexp re => MatchString re v
  end.

(** Modelled from the spec: the values a header collection holds for a name,
    "case-insensitive name lookup returning zero or more values per name". *)
Definition header_values (h : gmap gostring (list gostring)) (name : gostring)
  : list gostring :=
  concat (snd <$> filter (λ kv, map ascii_lower kv.1 = map ascii_lower name)
                         (map_to_list h)).

(** Modelled from the spec: [matchMap] is defined in a file that is not part
    of the sources at hand; "when requireAll is true, every mapped name
    must have at least one actual value satisfying its comparison".  The
    spec is silent on the other value of the flag, which the source never
    passes; it is read as "some mapped name". *)
Definition matchMap (toCheck : gmap gostring comparison)
    (toMatch : gmap gostring (list gostring)) (requireAll : bool) : bool :=
  let satisfied (kc : gostring * comparison) :=
    existsb (comparison_eval kc.2) (header_values toMatch kc.1) in
  if requireAll then forallb satisfied (map_to_list toCheck)
  else existsb satisfied (map_to_list toCheck).

(** [type headerMatcher map[string]comparison] *)
Record headerMatcher := mkHeaderMatcher {
  headerMatcher_map : gmap gostring comparison
}.

#[export] Instance headerMatcher_Matcher : Matcher headerMatcher := {
  Match :=
    (m <~ read_self ;;
     r <~ read_request ;;
     act_ret (matchMap (headerMatcher_map m) (r_Header r) true));
  Rank _ := rankAny
}.

(** [type headerRegexMatcher map[string]comparison] *)
Record headerRegexMatcher := mkHeaderRegexMatcher {
  headerRegexMatcher_map : gmap gostring comparison
}.

#[export] Instance headerRegexMatcher_Matcher : Matcher headerRegexMatcher := {
  Match :=
    (m <~ read_self ;;
     r <~ read_request ;;
     act_ret (matchMap (headerRegexMatcher_map m) (r_Header r) true));
  Rank _ := rankAny
}.

(** [type MatcherFunc func( *http.Request) bool] *)
Record MatcherFunc := mkMatcherFunc {
  MatcherFunc_call : Request → option (bool * Request);
  MatcherFunc_call_nil : option bool
}.

(** [return m(r)] *)
#[export] Instance MatcherFunc_Matcher : Matcher MatcherFunc := {
  Match := (m <~ read_self ;;
            call_func (MatcherFunc_call m) (MatcherFunc_call_nil m));
  Rank _ := rankAny
}.

(** [type schemeMatcher map[string]struct{}] *)
Record schemeMatcher := mkSchemeMatcher { schemeMatcher_set : gset gostring }.

Section ToLower.
(** [strings.Map(unicode.ToLower, s)], the path [strings.ToLower] takes
    for a string with a byte above 127: Unicode's case tables are a
    parameter of the model. *)
Variable unicode_ToLower : gostring → gostring.

(** [strings.ToLower(s)]: ASCII-only strings are lowered byte by byte. *)
Definition strings_ToLower (s : gostring) : gostring :=
  if forallb is_ascii7 s then map ascii_lower s else unicode_ToLower s.

Definition newSchemeMatcher (schemes : list gostring) : schemeMatcher :=
  mkSchemeMatcher
    (foldl (λ m v, {[ strings_ToLower v ]} ∪ m) ∅ schemes).
End ToLower.

#[export] Instance schemeMatcher_Matcher : Matcher schemeMatcher := {
  Match :=
    (m <~ read_self ;;
     r <~ read_request ;;
     u <~ deref (r_URL r) ;;
     act_ret (bool_decide (Scheme u ∈ schemeMatcher_set m)));
  Rank _ := rankScheme
}.

(** [type pathMatcher string] *)
Record pathMatcher := mkPathMatcher { pathMatcher_string : gostring }.

#[export] Instance pathMatcher_Matcher : Matcher pathMatcher := {
  Match :=
    (m <~ read_self ;;
     r <~ read_request ;;
     u <~ deref (r_URL r) ;;
     act_ret (strings_Compare (pathMatcher_string m) (Path u) =? 0)%Z);
  Rank _ := rankPath
}.

(** [type pathWithVarsMatcher struct { regex *regexp.Regexp }] *)
Record pathWithVarsMatcher := mkPathWithVarsMatcher {
  pathWithVarsMatcher_regex : Regexp
}.

Definition newPathWithVarsMatcher (path : gostring) : option pathWithVarsMatcher :=
  path ← rewrite_template path;
  re ← regexp_MustCompile (str "^" ++ path ++ str "$");
  Some (mkPathWithVarsMatcher re).

#[export] Instance pathWithVarsMatcher_Matcher : Matcher pathWithVarsMatcher := {
  Match :=
    (m <~ read_self ;;
     r <~ read_request ;;
     u <~ deref (r_URL r) ;;
     act_ret (MatchString (pathWithVarsMatcher_regex m) (Path u)));
  Rank _ := rankPath
}.

(** [type pathRegexMatcher struct { regex *regexp.Regexp }] *)
Record pathRegexMatcher := mkPathRegexMatcher {
  pathRegexMatcher_regex : Regexp
}.

Definition newPathRegexMatcher (path : gostring) : option pathRegexMatcher :=
  path ← strings_Replace path (str "#") (str "") (-1);
  re ← regexp_MustCompile (str "^" ++ path ++ str "$");
  Some (mkPathRegexMatcher re).

#[export] Instance pathRegexMatcher_Matcher : Matcher pathRegexMatcher := {
  Match :=
    (m <~ read_self ;;
     r <~ read_request ;;
     u <~ deref (r_URL r) ;;
     act_ret (MatchString (pathRegexMatcher_regex m) (Path u)));
  Rank _ := rankPath
}.

(** The answer of [m.Match(r)] for a pointer [r] to the request [r], when
    it returns. *)
Definition Match_result {T} `{Matcher T} (m : T) (r : Request) : option bool :=
  fst <$> Match (mkWorld m (Some r)).

(** A request whose URL has the given scheme and path. *)
Definition request_for (scheme path : gostring)
    (header : gmap gostring (list gostring)) : Request :=
  mkRequest (Some (mkURL scheme path)) header.

(** ** The collection [Matchers] *)

(** A value of the interface type [Matcher]: a value of some type with its
    methods. *)
Inductive MatcherValue : Type :=
| matcherValue (T : Type) (methods : Matcher T) (v : T).

Definition rank_of (m : MatcherValue) : Z :=
  match m with
  | matcherValue T methods v => Rank v
  end.

(** [type Matchers []Matcher] *)
Abbreviation Matchers := (list MatcherValue).

Definition Len (m : Matchers) : nat := length m.

(** [m[i], m[j] = m[j], m[i]]; an index out of range panics. *)
Definition Swap (m : Matchers) (i j : nat) : option Matchers :=
  a ← m !! i;
  b ← m !! j;
  Some (<[j := a]> (<[i := b]> m)).

(** [m[i].Rank() < m[j].Rank()] *)
Definition Less (m : Matchers) (i j : nat) : option bool :=
  a ← m !! i;
  b ← m !! j;
  Some (rank_of a <? rank_of b)%Z.

(** [insertionSort] of Go's [sort] package, which is what [sort.Sort] runs
    on a collection of at most twelve elements: the inner loop
    [for j := i; j > 0 && data.Less(j, j-1); j-- { data.Swap(j, j-1) }]. *)
Fixpoint insert_down (j : nat) (m : Matchers) : option Matchers :=
  match j with
  | 0 => Some m
  | S j' =>
      lt ← Less m j j';
      if lt : bool then m' ← Swap m j j'; insert_down j' m'
      else Some m
  end.

(** The outer loop [for i := 1; i < n; i++], from [i] on. *)
Fixpoint insertion_loop (count i : nat) (m : Matchers) : option Matchers :=
  match count with
  | 0 => Some m
  | S count' => m' ← insert_down i m; insertion_loop count' (S i) m'
  end.

Definition insertionSort (m : Matchers) : option Matchers :=
  insertion_loop (Len m - 1) 1 m.

(** ** Measures and predicates used in the statements *)

Definition count_colons (path : gostring) : nat :=
  length (filter (λ c, c = ":"%char) path).

(** Where the token that is looked at in iteration [i] ends: one past the
    last byte when [i] is the last index, else [i]. *)
Definition token_end (i : nat) (path : gostring) : nat :=
  if i =? length path - 1 then S i else i.

(** The pairs of a keyword and the fragment that replaces it. *)
Definition keywords : list (gostring * gostring) :=
  [(numberKeyword, numberFragment); (stringKeyword, stringFragment)].

(** The template after the substitution of the token that starts at [f]
    and is looked at in iteration [i], when that token is a keyword. *)
Definition substitution (i : nat) (path : gostring) (f : nat) : option gostring :=
  let seg := take (token_end i path - f) (drop f path) in
  if bool_decide (seg = numberKeyword)
  then Some (take f path ++ numberFragment ++ drop (token_end i path) path)
  else if bool_decide (seg = stringKeyword)
  then Some (take f path ++ stringFragment ++ drop (token_end i path) path)
  else None.

(** The test of line 126. *)
Definition token_ends (i : nat) (path : gostring) (vars : variable) (char : ascii)
  : bool :=
  negb (firstIndex vars =? 0)
  && (bool_decide (char = "/"%char) || (i =? length path - 1)).

(** How the state of the source's scan, which keeps [firstIndex] after a
    token that is no keyword, relates at index [i] to the state of the scan
    that resets it: the two agree on [firstIndex], or the second has none
    and the first one's is stale, that is, the scan is over or a slash
    lies between it and [i]. *)
Definition same_or_stale (i : nat) (path : gostring) (vars vars' : variable)
  : Prop :=
  firstIndex vars' = firstIndex vars
  ∨ (firstIndex vars' = 0
     ∧ (length path ≤ i
        ∨ ∃ k, firstIndex vars ≤ k < i ∧ path !! k = Some "/"%char)).

(** No later element of the collection is less than an earlier one. *)
Definition sorted_by_Less (m : Matchers) : Prop :=
  ∀ i j, i < j → j < Len m → Less m j i = Some false.

(** A custom function that answers true and rewrites the path of the
    request it is given (it panics on a nil pointer, where it has no
    request to write to), and one that panics always. *)
Definition rewriting_func : MatcherFunc :=
  mkMatcherFunc (λ r, Some (true, mkRequest (Some (mkURL (str "http") (str "/")))
                                            (r_Header r)))
                None.

Definition panicking_func : MatcherFunc := mkMatcherFunc (λ _, None) None.

(** The result of a parser once ["$"] is appended to its input, when the
    parse does not depend on what follows. *)
Definition with_dollar {A} (x : option (A * gostring)) : option (A * gostring) :=
  (λ p, (p.1, p.2 ++ str "$")) <$> x.

(** The pattern parses as one sequence of pieces: there is no alternation
    at its top level. *)
Definition parse_sequence (s : gostring) : option (list regex) :=
  '(pieces, rest) ← parse_concat (parse_alternation (length s)) (length s) s;
  match rest with
  | [] => Some pieces
  | _ => None
  end.

(** What the inner loop of the insertion sort computes, on the reversed
    prefix: [x] moves left past every element of greater rank. *)
Fixpoint place_rev (x : MatcherValue) (rp : Matchers) : Matchers :=
  match rp with
  | [] => [x]
  | y :: rp' =>
      if (rank_of x <? rank_of y)%Z then y :: place_rev x rp'
      else x :: rp
  end.

(** Ranks do not increase along the list. *)
Fixpoint descending (l : Matchers) : Prop :=
  match l with
  | [] => True
  | y :: l' => (∀ z, z ∈ l' → (rank_of z ≤ rank_of y)%Z) ∧ descending l'
  end.

(** *** The scan, told chunk by chunk

    What the loop of [newPathWithVarsMatcher] computes, as a function of the
    template's text: it is compared with [rewrite_template] below. *)

(** The template cut at its colons: the text before the first colon and,
    for every colon, the text that follows it up to the next colon. *)
Fixpoint split_colons (t : gostring) : gostring * list gostring :=
  match t with
  | [] => ([], [])
  | c :: t' =>
      let r := split_colons t' in
      if bool_decide (c = ":"%char) then ([], r.1 :: r.2) else (c :: r.1, r.2)
  end.

(** The text up to the first slash, and the rest from that slash on. *)
Fixpoint upto_slash (t : gostring) : gostring * gostring :=
  match t with
  | [] => ([], [])
  | c :: t' =>
      if bool_decide (c = "/"%char) then ([], t)
      else let r := upto_slash t' in (c :: r.1, r.2)
  end.

(** The scan meets the end of the name that follows a colon: at the slash
    that stands [after] the name, unless that slash is the last byte of the
    template, or at the last byte of the template when no slash follows.
    [last] says that no colon comes later. *)
Definition name_ends (last : bool) (after : gostring) : bool :=
  match after with
  | [] => last
  | _ :: after' => negb (last && bool_decide (after' = []))
  end.

(** A colon that is not at index 0, with the text [t] up to the next
    colon. *)
Definition expand_chunk (last : bool) (t : gostring) : gostring :=
  let r := upto_slash t in
  if name_ends last r.2 && bool_decide (":"%char :: r.1 = numberKeyword)
  then numberFragment ++ r.2
  else if name_ends last r.2 && bool_decide (":"%char :: r.1 = stringKeyword)
  then stringFragment ++ r.2
  else ":"%char :: t.

Fixpoint expand_chunks (ts : list gostring) : gostring :=
  match ts with
  | [] => []
  | t :: ts' => expand_chunk (bool_decide (ts' = [])) t ++ expand_chunks ts'
  end.

(** The chunks that follow the text [done]: a colon at index 0 is kept
    with the text up to the next colon. *)
Definition expand_after (done : gostring) (ts : list gostring) : gostring :=
  match done, ts with
  | [], t :: ts' => ":"%char :: t ++ expand_chunks ts'
  | _, _ => expand_chunks ts
  end.

Definition expand_template (t : gostring) : gostring :=
  let r := split_colons t in r.1 ++ expand_after r.1 r.2.

(** The chunks of a template, put together again. *)
Definition join_colons (ts : list gostring) : gostring :=
  concat (map (cons ":"%char) ts).

(** *** Templates with placeholders *)

Inductive placeholder : Type := phNumber | phString.

Definition keyword_of (ph : placeholder) : gostring :=
  match ph with
  | phNumber => numberKeyword
  | phString => stringKeyword
  end.

Definition fragment_of (ph : placeholder) : gostring :=
  match ph with
  | phNumber => numberFragment
  | phString => stringFragment
  end.

(** The bytes a placeholder stands for: decimal digits, ASCII letters. *)
Definition placeholder_class (ph : placeholder) : list (ascii * ascii) :=
  match ph with
  | phNumber => [("0", "9")]%char
  | phString => [("a", "z"); ("A", "Z")]%char
  end.

(** A template after its first text: placeholders, each followed by a
    text. *)
Fixpoint render (segs : list (placeholder * gostring)) : gostring :=
  match segs with
  | [] => []
  | (ph, p) :: segs' => keyword_of ph ++ p ++ render segs'
  end.

(** The same with every placeholder replaced by its fragment. *)
Fixpoint render_pattern (segs : list (placeholder * gostring)) : gostring :=
  match segs with
  | [] => []
  | (ph, p) :: segs' => fragment_of ph ++ p ++ render_pattern segs'
  end.

(** A text between placeholders: plain bytes without a colon. *)
Definition plain_text (p : gostring) : Prop :=
  Forall (λ c, plain_char c = true ∧ c ≠ ":"%char) p.

(** Every placeholder is followed by the end of the template or by a slash
    that is not the last byte of the template. *)
Fixpoint well_delimited (segs : list (placeholder * gostring)) : Prop :=
  match segs with
  | [] => True
  | (ph, p) :: segs' =>
      plain_text p
      ∧ match p with
        | [] => segs' = []
        | c :: p' => c = "/"%char ∧ (p' = [] → segs' ≠ [])
        end
      ∧ well_delimited segs'
  end.

(** The paths that a template's placeholders and texts describe: for every
    placeholder a non-empty run of bytes of its class, then the text. *)
Fixpoint described (segs : list (placeholder * gostring)) (s : gostring) : Prop :=
  match segs with
  | [] => s = []
  | (ph, p) :: segs' =>
      ∃ v rest, s = v ++ p ++ rest
                ∧ v ≠ []
                ∧ Forall (λ c, in_class (placeholder_class ph) c = true) v
                ∧ described segs' rest
  end.

(** The pieces that the pattern of such a template parses to. *)
Fixpoint pieces_of (segs : list (placeholder * gostring)) : list regex :=
  match segs with
  | [] => []
  | (ph, p) :: segs' =>
      Capture (concat_of [Repeat 1 None (CharClass (placeholder_class ph))])
      :: map Literal p ++ pieces_of segs'
  end.

(** [strings.Contains(s, substr)]. *)
Fixpoint strings_Contains (s substr : gostring) : bool :=
  if is_prefix substr s then true
  else match s with
       | [] => false
       | _ :: s' => strings_Contains s' substr
       end.

(** The colons that a scan consumed account for its growth: every
    substitution takes one colon and adds four or seven bytes. *)
Definition grown_by_substitutions (t path : gostring) : Prop :=
  count_colons path ≤ count_colons t
  ∧ length t + 4 * (count_colons t - count_colons path) ≤ length path
  ∧ length path ≤ length t + 7 * (count_colons t - count_colons path).

(** The name of a placeholder, and the chunks of a template of
    placeholders and texts. *)
Definition name_of (ph : placeholder) : gostring :=
  match ph with
  | phNumber => str "number"
  | phString => str "string"
  end.

Definition chunks_of (segs : list (placeholder * gostring)) : list gostring :=
  map (λ seg, name_of seg.1 ++ seg.2) segs.

(** Matchers of rank [r], in the order of the collection. *)
Definition of_rank (r : Z) (m : Matchers) : Matchers :=
  filter (λ x, rank_of x = r) m.

(** * Properties *)

(** ** The scan on some templates *)

Example rewrite_number :
  rewrite_template (str "/users/:number") = Some (str "/users/([0-9]{1,})").
Proof. vm_compute. reflexivity. Qed.

Example rewrite_string :
  rewrite_template (str "/users/:string/profile")
  = Some (str "/users/([a-zA-Z]{1,})/profile").
Proof. vm_compute. reflexivity. Qed.

Example rewrite_two :
  rewrite_template (str "/a/:string/b/:number")
  = Some (str "/a/([a-zA-Z]{1,})/b/([0-9]{1,})").
Proof. vm_compute. reflexivity. Qed.

Example rewrite_trailing :
  rewrite_template (str "/users/:number/") = Some (str "/users/:number/").
Proof. vm_compute. reflexivity. Qed.

Example rewrite_leading :
  rewrite_template (str ":number") = Some (str ":number").
Proof. vm_compute. reflexivity. Qed.

Example scan_prefix_unknown :
  scan_prefix 7 0 (str "/a/:id/b") variable_zero
  = Some (7, str "/a/:id/b", mkVariable 3 6).
Proof. vm_compute. reflexivity. Qed.

Example parse_number :
  parse (str "^/a/([0-9]{1,})$")
  = Some (concat_of [BeginText; Literal "/"; Literal "a"; Literal "/";
                     Capture (concat_of [Repeat 1 None (CharClass [("0","9")]%char)]);
                     EndText]).
Proof. vm_compute. reflexivity. Qed.

(** Malformed patterns are rejected: those that the tests of Go's [regexp]
    package list as bad, and counted repetitions that follow one another,
    are too large or are reversed. *)
Example parse_rejects :
  Forall (λ p, parse (str p) = None)
    ["*"; "+"; "?"; "(abc"; "abc)"; "x[a-z"; "[z-a]"; "abc\"; "a**"; "a*+"; "\x";
     "a{2}{3}"; "a{1001}"; "a{2,1}"; "(a{500}){3}"]%string.
Proof. repeat constructor. Qed.

Example matching_examples :
  search_all
    [("^a|b$", "ab", true); ("^a|b$", "ba", false); ("^(a|b)$", "ab", false);
     ("^a{2,3}$", "a", false); ("^a{2,3}$", "aaa", true); ("^a{2,3}$", "aaaa", false);
     ("a{2,3}", "aaaa", true); ("^(ab)*c+$", "ababcc", true); ("^(ab)*c+$", "abac", false);
     ("^[a-c-e]+$", "a-e", true); ("^[a-c-e]+$", "d", false); ("^a{,2}$", "a{,2}", true);
     ("^x*?y$", "xxy", true); ("^(|a)+$", "aa", true); ("^\.$", ".", true);
     ("^\.$", "a", false); ("^$", "", true); ("", "abc", true)]%string = true.
Proof. vm_compute. reflexivity. Qed.

(** ** The scan: slices, termination *)

Lemma slice_Some path a b seg :
  slice path a b = Some seg →
  a ≤ b ∧ b ≤ length path ∧ path = take a path ++ seg ++ drop b path.
Proof.
  unfold slice. intros H.
  destruct (a <=? b) eqn:Hab; [|discriminate].
  destruct (b <=? length path) eqn:Hb; [|discriminate].
  apply Nat.leb_le in Hab. apply Nat.leb_le in Hb.
  simpl in H. injection H as <-.
  split; [done|]. split; [done|].
  replace (drop b path) with (drop (b - a) (drop a path))
    by (rewrite drop_drop; f_equal; lia).
  by rewrite !take_drop.
Qed.

Lemma slice_in_range path a b :
  a ≤ b → b ≤ length path → slice path a b = Some (take (b - a) (drop a path)).
Proof.
  intros Hab Hb. unfold slice.
  apply Nat.leb_le in Hab. apply Nat.leb_le in Hb. by rewrite Hab, Hb.
Qed.

(** The two outcomes of an iteration: the template is left as it is, or a
    keyword between [firstIndex] and the token's end is replaced by its
    fragment and the state is reset. *)
Lemma loop_body_cases i path vars :
  i < length path → firstIndex vars ≤ i →
  ∃ path' vars',
    loop_body i path vars = Some (path', vars')
    ∧ ((path' = path
        ∧ (firstIndex vars' = firstIndex vars ∨ firstIndex vars' = i))
       ∨ (∃ kw frag,
            (kw, frag) ∈ keywords
            ∧ firstIndex vars ≠ 0
            ∧ path !! i ≠ Some ":"%char
            ∧ (path !! i = Some "/"%char ∨ i = length path - 1)
            ∧ firstIndex vars ≤ token_end i path ≤ length path
            ∧ path = take (firstIndex vars) path ++ kw ++ drop (token_end i path) path
            ∧ path' = take (firstIndex vars) path ++ frag ++ drop (token_end i path) path
            ∧ vars' = variable_zero)).
Proof.
  intros Hi Hf. unfold loop_body.
  destruct (path !! i) as [char|] eqn:Hc; last first.
  { apply lookup_ge_None in Hc. lia. }
  cbn. case_bool_decide as Hcolon.
  { eexists _, _. split; [done|]. left. simpl. auto. }
  destruct (negb (firstIndex vars =? 0)
            && (bool_decide (char = "/"%char) || (i =? length path - 1))) eqn:Hcond;
    last first.
  { eexists _, _. split; [done|]. left. auto. }
  apply andb_true_iff in Hcond as [Hnz Hend].
  apply negb_true_iff, Nat.eqb_neq in Hnz.
  assert (Hend' : char = "/"%char ∨ i = length path - 1).
  { apply orb_true_iff in Hend as [H|H]; [left; by apply bool_decide_eq_true in H|].
    right. by apply Nat.eqb_eq in H. }
  clear Hend. cbn. fold (token_end i path).
  assert (Hfl : firstIndex vars ≤ token_end i path ≤ length path).
  { unfold token_end. destruct (i =? length path - 1) eqn:E; [|lia].
    apply Nat.eqb_eq in E. lia. }
  replace (firstIndex (if i =? length path - 1
                       then mkVariable (firstIndex vars) (S i)
                       else mkVariable (firstIndex vars) i))
    with (firstIndex vars) by (by destruct (i =? length path - 1)).
  replace (lastIndex (if i =? length path - 1
                      then mkVariable (firstIndex vars) (S i)
                      else mkVariable (firstIndex vars) i))
    with (token_end i path) by (unfold token_end; by destruct (i =? length path - 1)).
  destruct (slice path (firstIndex vars) (token_end i path)) as [seg|] eqn:Hseg;
    last first.
  { rewrite slice_in_range in Hseg by lia. discriminate. }
  apply slice_Some in Hseg as (_ & _ & Hpath).
  unfold slice_to, slice_from.
  rewrite (proj2 (Nat.leb_le (firstIndex vars) (length path))) by lia.
  rewrite (proj2 (Nat.leb_le (token_end i path) (length path))) by lia.
  cbn. case_bool_decide as Hnum.
  { eexists _, _. split; [done|]. right. exists numberKeyword, numberFragment.
    subst seg. split; [unfold keywords; rewrite !elem_of_cons; auto|].
    split; [done|]. split; [congruence|].
    split; [destruct Hend'; [left; congruence | by right]|].
    split; [exact Hfl|]. split; [exact Hpath|]. by split. }
  case_bool_decide as Hstr.
  { eexists _, _. split; [done|]. right. exists stringKeyword, stringFragment.
    subst seg. split; [unfold keywords; rewrite !elem_of_cons; auto|].
    split; [done|]. split; [congruence|].
    split; [destruct Hend'; [left; congruence | by right]|].
    split; [exact Hfl|]. split; [exact Hpath|]. by split. }
  eexists _, _. split; [done|]. left. split; [done|].
  left. by destruct (i =? length path - 1).
Qed.

Lemma count_colons_app a b : count_colons (a ++ b) = count_colons a + count_colons b.
Proof. unfold count_colons. by rewrite filter_app, length_app. Qed.

Lemma count_colons_le path : count_colons path ≤ length path.
Proof. apply length_filter. Qed.

Lemma keywords_measure kw frag :
  (kw, frag) ∈ keywords →
  length kw = 7 ∧ count_colons kw = 1 ∧ length frag ≤ 14 ∧ count_colons frag = 0.
Proof.
  unfold keywords. rewrite !elem_of_cons, elem_of_nil.
  intros [[= -> ->]|[[= -> ->]|[]]]; vm_compute; repeat split; lia.
Qed.

(** An iteration never lets [length path + 7 * count_colons path] grow, and
    leaves [firstIndex] at most [i]. *)
Lemma loop_body_measure i path vars :
  i < length path → firstIndex vars ≤ i →
  ∃ path' vars',
    loop_body i path vars = Some (path', vars')
    ∧ firstIndex vars' ≤ i
    ∧ length path' + 7 * count_colons path' ≤ length path + 7 * count_colons path.
Proof.
  intros Hi Hf.
  destruct (loop_body_cases i path vars Hi Hf) as (path' & vars' & Hb & Hcase).
  exists path', vars'. split; [done|].
  destruct Hcase as [[-> Hv]|(kw & frag & Hk & _ & _ & _ & Hfl & Hp & -> & ->)].
  { split; [lia|done]. }
  split; [simpl; lia|].
  apply keywords_measure in Hk as (Hlk & Hck & Hlf & Hcf).
  revert Hp. generalize (take (firstIndex vars) path) (drop (token_end i path) path).
  intros a c ->. rewrite !count_colons_app, !length_app. lia.
Qed.

Lemma scan_loop_total fuel : ∀ i path vars,
  firstIndex vars ≤ i →
  length path + 7 * count_colons path ≤ fuel + i →
  is_Some (scan_loop fuel i path vars).
Proof.
  induction fuel as [|fuel IH]; intros i path vars Hf Hm; simpl.
  - destruct (i <? length path) eqn:E; [|by eexists].
    apply Nat.ltb_lt in E. lia.
  - destruct (i <? length path) eqn:E; [|by eexists].
    apply Nat.ltb_lt in E.
    destruct (loop_body_measure i path vars E Hf) as (path' & vars' & -> & Hf' & Hm').
    simpl. apply IH; lia.
Qed.

(** The scan terminates within its fuel and no slice in it is out of range:
    the rewritten template always exists. *)
Lemma rewrite_template_total path : is_Some (rewrite_template path).
Proof.
  unfold rewrite_template, scan_fuel.
  destruct (scan_loop_total (8 * length path) 0 path variable_zero) as [[out v] ->].
  - simpl. lia.
  - pose proof (count_colons_le path). lia.
  - by eexists.
Qed.

(** A property of the template that every substitution preserves holds of
    the template all along the scan. *)
Lemma scan_loop_preserves (P : gostring → Prop) :
  (∀ i path kw frag f,
     (kw, frag) ∈ keywords → f ≠ 0 → i < length path →
     path !! i ≠ Some ":"%char →
     (path !! i = Some "/"%char ∨ i = length path - 1) →
     f ≤ token_end i path ≤ length path →
     path = take f path ++ kw ++ drop (token_end i path) path →
     P path → P (take f path ++ frag ++ drop (token_end i path) path)) →
  ∀ fuel i path vars out vars',
    firstIndex vars ≤ i → P path →
    scan_loop fuel i path vars = Some (out, vars') → P out.
Proof.
  intros Hstep fuel. induction fuel as [|fuel IH]; intros i path vars out vars' Hf HP; simpl.
  - destruct (i <? length path); [discriminate|]. by intros [= <- <-].
  - destruct (i <? length path) eqn:E; [|by intros [= <- <-]].
    apply Nat.ltb_lt in E.
    destruct (loop_body_cases i path vars E Hf) as (path' & v & -> & Hcase).
    simpl. apply IH.
    + destruct Hcase as [[_ [->| ->]]|(? & ? & _ & _ & _ & _ & _ & _ & _ & ->)];
        simpl; lia.
    + destruct Hcase as [[-> _]|(kw & frag & Hk & Hnz & Hc & He & Hfl & Hp & -> & _)];
        [done|]. by eapply Hstep.
Qed.

(** ** The scan of the source and the scan of the specification *)

Lemma token_end_range i path f :
  i < length path → f ≤ i → f ≤ token_end i path ≤ length path.
Proof.
  intros Hi Hf. unfold token_end.
  destruct (i =? length path - 1) eqn:E; [|lia].
  apply Nat.eqb_eq in E. lia.
Qed.

Lemma loop_body_unfold i path vars char :
  path !! i = Some char → firstIndex vars ≤ i →
  loop_body i path vars
  = if bool_decide (char = ":"%char) then Some (path, mkVariable i (lastIndex vars))
    else if token_ends i path vars char then
      match substitution i path (firstIndex vars) with
      | Some path' => Some (path', variable_zero)
      | None => Some (path, mkVariable (firstIndex vars) (token_end i path))
      end
    else Some (path, vars).
Proof.
  intros Hc Hf. pose proof (lookup_lt_Some _ _ _ Hc) as Hi.
  pose proof (token_end_range i path (firstIndex vars) Hi Hf) as Hr.
  unfold loop_body, token_ends, substitution. rewrite Hc. cbn [mbind option_bind].
  case_bool_decide; [done|].
  destruct (negb (firstIndex vars =? 0) && _); [|done].
  cbn [lastIndex firstIndex]. fold (token_end i path).
  replace (firstIndex (if i =? length path - 1
                       then mkVariable (firstIndex vars) (S i)
                       else mkVariable (firstIndex vars) i))
    with (firstIndex vars) by (by destruct (i =? length path - 1)).
  replace (lastIndex (if i =? length path - 1
                      then mkVariable (firstIndex vars) (S i)
                      else mkVariable (firstIndex vars) i))
    with (token_end i path) by (unfold token_end; by destruct (i =? length path - 1)).
  rewrite slice_in_range by lia. cbn [mbind option_bind].
  unfold slice_to, slice_from.
  rewrite (proj2 (Nat.leb_le (firstIndex vars) (length path))) by lia.
  rewrite (proj2 (Nat.leb_le (token_end i path) (length path))) by lia.
  cbn [mbind option_bind].
  repeat case_bool_decide; try done.
  unfold token_end. by destruct (i =? length path - 1).
Qed.

Lemma loop_body_as_specified_unfold i path vars char :
  path !! i = Some char → firstIndex vars ≤ i →
  loop_body_as_specified i path vars
  = if bool_decide (char = ":"%char) then Some (path, mkVariable i (lastIndex vars))
    else if token_ends i path vars char then
      match substitution i path (firstIndex vars) with
      | Some path' => Some (path', variable_zero)
      | None => Some (path, variable_zero)
      end
    else Some (path, vars).
Proof.
  intros Hc Hf. pose proof (lookup_lt_Some _ _ _ Hc) as Hi.
  pose proof (token_end_range i path (firstIndex vars) Hi Hf) as Hr.
  unfold loop_body_as_specified, token_ends, substitution. rewrite Hc.
  cbn [mbind option_bind].
  case_bool_decide; [done|].
  destruct (negb (firstIndex vars =? 0) && _); [|done].
  cbn zeta. fold (token_end i path).
  rewrite slice_in_range by lia. cbn [mbind option_bind].
  unfold slice_to, slice_from.
  rewrite (proj2 (Nat.leb_le (firstIndex vars) (length path))) by lia.
  rewrite (proj2 (Nat.leb_le (token_end i path) (length path))) by lia.
  cbn [mbind option_bind].
  by repeat case_bool_decide.
Qed.

(** A token with a slash inside is no keyword. *)
Lemma substitution_stale i path f k :
  i < length path → f ≤ k < i → path !! k = Some "/"%char →
  substitution i path f = None.
Proof.
  intros Hi Hk Hslash.
  pose proof (token_end_range i path f Hi ltac:(lia)) as Hr.
  assert (Hle : i ≤ token_end i path).
  { unfold token_end. destruct (i =? length path - 1); lia. }
  assert (Hseg : take (token_end i path - f) (drop f path) !! (k - f) = Some "/"%char).
  { rewrite lookup_take_lt by lia. rewrite lookup_drop.
    by replace (f + (k - f)) with k by lia. }
  unfold substitution.
  case_bool_decide as Hn.
  { rewrite Hn in Hseg. exfalso. revert Hseg. generalize (k - f).
    intros [|[|[|[|[|[|[|j]]]]]]]; discriminate. }
  case_bool_decide as Hs; [|done].
  rewrite Hs in Hseg. exfalso. revert Hseg. generalize (k - f).
  intros [|[|[|[|[|[|[|j]]]]]]]; discriminate.
Qed.

(** One iteration of the two scans from related states: the same template,
    and related states again. *)
Lemma loop_bodies_related i path vars vars' :
  i < length path → firstIndex vars ≤ i →
  same_or_stale i path vars vars' →
  ∃ path1 v v',
    loop_body i path vars = Some (path1, v)
    ∧ loop_body_as_specified i path vars' = Some (path1, v')
    ∧ firstIndex v ≤ S i
    ∧ same_or_stale (S i) path1 v v'.
Proof.
  intros Hi Hf Hrel.
  destruct (lookup_lt_is_Some_2 path i Hi) as [char Hc].
  assert (Hf' : firstIndex vars' ≤ i) by (destruct Hrel as [->|[-> _]]; lia).
  rewrite (loop_body_unfold _ _ _ _ Hc Hf).
  rewrite (loop_body_as_specified_unfold _ _ _ _ Hc Hf').
  case_bool_decide as Hcolon.
  { eexists _, _, _. split; [done|]. split; [done|]. split; [simpl; lia|]. by left. }
  destruct Hrel as [Heq|[Hzero Hstale]].
  - (* the two states agree *)
    unfold token_ends. rewrite Heq.
    destruct (negb (firstIndex vars =? 0)
              && (bool_decide (char = "/"%char) || (i =? length path - 1))) eqn:Hend.
    + destruct (substitution i path (firstIndex vars)) as [path'|] eqn:Hsub.
      * eexists _, _, _. split; [done|]. split; [done|]. split; [simpl; lia|]. by left.
      * eexists _, _, _. split; [done|]. split; [done|]. split; [simpl; lia|].
        right. split; [done|]. cbn [firstIndex].
        apply andb_true_iff in Hend as [_ Hend].
        apply orb_true_iff in Hend as [Hslash|Hlast].
        -- right. exists i. apply bool_decide_eq_true in Hslash as ->.
           split; [lia|done].
        -- left. apply Nat.eqb_eq in Hlast. lia.
    + eexists _, _, _. split; [done|]. split; [done|]. split; [lia|]. by left.
  - (* the state of the source is stale *)
    assert (Hspec : token_ends i path vars' char = false).
    { unfold token_ends. by rewrite Hzero. }
    rewrite Hspec.
    destruct Hstale as [Hover|(k & Hk & Hslash)]; [lia|].
    rewrite (substitution_stale i path (firstIndex vars) k) by done.
    destruct (token_ends i path vars char).
    + eexists _, _, _. split; [done|]. split; [done|]. split; [simpl; lia|].
      right. split; [done|]. right. exists k. cbn [firstIndex]. split; [lia|done].
    + eexists _, _, _. split; [done|]. split; [done|]. split; [lia|].
      right. split; [done|]. right. exists k. split; [lia|done].
Qed.

Lemma scan_loops_related fuel : ∀ i path vars vars',
  firstIndex vars ≤ i →
  same_or_stale i path vars vars' →
  fst <$> scan_loop_as_specified fuel i path vars'
  = fst <$> scan_loop fuel i path vars.
Proof.
  induction fuel as [|fuel IH]; intros i path vars vars' Hf Hrel; simpl.
  - by destruct (i <? length path).
  - destruct (i <? length path) eqn:E; [|done].
    apply Nat.ltb_lt in E.
    destruct (loop_bodies_related i path vars vars' E Hf Hrel)
      as (path1 & v & v' & -> & -> & Hf1 & Hrel1).
    cbn [mbind option_bind]. by apply IH.
Qed.

(** The scan of the source returns the template that the scan of the
    specification returns. *)
Lemma rewrite_template_as_specified_eq path :
  rewrite_template_as_specified path = rewrite_template path.
Proof.
  unfold rewrite_template_as_specified, rewrite_template.
  apply scan_loops_related; [simpl; lia|by left].
Qed.

(** ** C1: a token that is no keyword *)

Lemma loop_body_unrecognized i path vars char seg :
  path !! i = Some char →
  char ≠ ":"%char →
  firstIndex vars ≠ 0 →
  char = "/"%char ∨ i = length path - 1 →
  slice path (firstIndex vars) (token_end i path) = Some seg →
  seg ≠ numberKeyword →
  seg ≠ stringKeyword →
  loop_body i path vars
  = Some (path, mkVariable (firstIndex vars) (token_end i path)).
Proof.
  intros Hc Hcolon Hnz Hend Hseg Hnum Hstr.
  unfold loop_body. rewrite Hc. cbn.
  rewrite bool_decide_eq_false_2 by done.
  replace (negb (firstIndex vars =? 0)
           && (bool_decide (char = "/"%char) || (i =? length path - 1)))
    with true; last first.
  { symmetry. apply andb_true_iff. split.
    - by apply negb_true_iff, Nat.eqb_neq.
    - apply orb_true_iff. destruct Hend as [->| ->]; [left|right].
      + by apply bool_decide_eq_true.
      + apply Nat.eqb_refl. }
  cbn. fold (token_end i path).
  replace (firstIndex (if i =? length path - 1
                       then mkVariable (firstIndex vars) (S i)
                       else mkVariable (firstIndex vars) i))
    with (firstIndex vars) by (by destruct (i =? length path - 1)).
  replace (lastIndex (if i =? length path - 1
                      then mkVariable (firstIndex vars) (S i)
                      else mkVariable (firstIndex vars) i))
    with (token_end i path) by (unfold token_end; by destruct (i =? length path - 1)).
  rewrite Hseg. cbn.
  rewrite !bool_decide_eq_false_2 by done.
  unfold token_end. by destruct (i =? length path - 1).
Qed.

(** An iteration on a byte that is no colon, while [firstIndex] is 0:
    the test of line 126 fails, and nothing changes. *)
Lemma loop_body_no_token i path vars char :
  path !! i = Some char →
  char ≠ ":"%char →
  firstIndex vars = 0 →
  loop_body i path vars = Some (path, vars).
Proof.
  intros Hc Hcolon Hz. unfold loop_body. rewrite Hc. cbn.
  rewrite bool_decide_eq_false_2 by done. by rewrite Hz.
Qed.

(** C1 (as amended).  A colon at index [i] makes [i] the [firstIndex] of
    the state.  At the iteration that reaches the end of a token which is
    neither ":number" nor ":string", the template is left as it is and the
    scan goes on to the next index; the scan state is not reset.  When the
    colon of the token is at an index other than 0, [firstIndex] keeps the
    index of the colon and [lastIndex] is set to the token's end.  When it
    is at index 0, [firstIndex] is 0, which the scan takes for "no token":
    at every byte that is no colon the state stays as it is, as on the
    template ":id/b", where the state is the zero state after every
    iteration.  The template that the scan returns is nevertheless the one
    a scan that resets the state at the end of such a token returns. *)
Theorem unrecognized_token_keeps_state :
  (∀ i path vars,
     path !! i = Some ":"%char →
     loop_body i path vars = Some (path, mkVariable i (lastIndex vars)))
  ∧ (∀ fuel i path vars char seg,
     path !! i = Some char →
     char ≠ ":"%char →
     firstIndex vars ≠ 0 →
     char = "/"%char ∨ i = length path - 1 →
     slice path (firstIndex vars) (token_end i path) = Some seg →
     seg ≠ numberKeyword →
     seg ≠ stringKeyword →
     loop_body i path vars
     = Some (path, mkVariable (firstIndex vars) (token_end i path))
     ∧ scan_loop (S fuel) i path vars
       = scan_loop fuel (S i) path (mkVariable (firstIndex vars) (token_end i path)))
  ∧ (∀ fuel i path vars char,
       path !! i = Some char →
       char ≠ ":"%char →
       firstIndex vars = 0 →
       loop_body i path vars = Some (path, vars)
       ∧ scan_loop (S fuel) i path vars = scan_loop fuel (S i) path vars)
  ∧ Forall (λ k, scan_prefix k 0 (str ":id/b") variable_zero
                 = Some (k, str ":id/b", variable_zero)) [1; 2; 3; 4; 5]
  ∧ (∀ template,
       rewrite_template_as_specified template = rewrite_template template).
Proof.
  split; [|split; [|split; [|split; [|apply rewrite_template_as_specified_eq]]]].
  - intros i path vars Hc. unfold loop_body. rewrite Hc. cbn.
    by rewrite bool_decide_eq_true_2.
  - intros fuel i path vars char seg Hc Hcolon Hnz Hend Hseg Hnum Hstr.
    pose proof (loop_body_unrecognized _ _ _ _ _ Hc Hcolon Hnz Hend Hseg Hnum Hstr)
      as Hbody.
    split; [done|].
    simpl. rewrite Hbody.
    apply lookup_lt_Some in Hc. apply Nat.ltb_lt in Hc. by rewrite Hc.
  - intros fuel i path vars char Hc Hcolon Hz.
    pose proof (loop_body_no_token _ _ _ _ Hc Hcolon Hz) as Hbody.
    split; [done|].
    simpl. rewrite Hbody.
    apply lookup_lt_Some in Hc. apply Nat.ltb_lt in Hc. by rewrite Hc.
  - repeat constructor.
Qed.

Lemma unrecognized_token_keeps_state_witness :
  (loop_body 6 (str "/a/:id/b") (mkVariable 3 0)
   = Some (str "/a/:id/b", mkVariable 3 6)
   ∧ scan_loop 9 6 (str "/a/:id/b") (mkVariable 3 0)
     = scan_loop 8 7 (str "/a/:id/b") (mkVariable 3 6))
  ∧ (loop_body 3 (str ":id/b") variable_zero = Some (str ":id/b", variable_zero)
     ∧ scan_loop 6 3 (str ":id/b") variable_zero
       = scan_loop 5 4 (str ":id/b") variable_zero).
Proof.
  split.
  - apply (proj1 (proj2 unrecognized_token_keeps_state) 8 6 (str "/a/:id/b")
             (mkVariable 3 0) "/"%char (str ":id")).
    + reflexivity.
    + discriminate.
    + simpl. lia.
    + left. reflexivity.
    + reflexivity.
    + discriminate.
    + discriminate.
  - apply (proj1 (proj2 (proj2 unrecognized_token_keeps_state)) 5 3 (str ":id/b")
             variable_zero "/"%char).
    + reflexivity.
    + discriminate.
    + reflexivity.
Defined.

(** C1 as stated fails: on the template "/a/:id/b" the scan reaches the
    slash that ends the token ":id" with [firstIndex = 3]; after that
    iteration the state is [{3, 6}], not the zero state. *)
Lemma unrecognized_token_state_not_reset :
  scan_prefix 6 0 (str "/a/:id/b") variable_zero
  = Some (6, str "/a/:id/b", mkVariable 3 0)
  ∧ str "/a/:id/b" !! 6 = Some "/"%char
  ∧ slice (str "/a/:id/b") 3 6 = Some (str ":id")
  ∧ loop_body 6 (str "/a/:id/b") (mkVariable 3 0)
    = Some (str "/a/:id/b", mkVariable 3 6)
  ∧ mkVariable 3 6 ≠ variable_zero.
Proof. repeat split; try reflexivity. discriminate. Qed.

(** ** Matching: what the matcher computes *)

Lemma existsb_fmap {A B} (f : B → bool) (g : A → B) (l : list A) :
  existsb f (map g l) = existsb (λ x, f (g x)) l.
Proof. induction l as [|x l IH]; simpl; [done|]. by rewrite IH. Qed.

Lemma existsb_splits (f : gostring * gostring → bool) (s : gostring) :
  existsb f (splits s) = true ↔ ∃ a b, s = a ++ b ∧ f (a, b) = true.
Proof.
  revert f. induction s as [|c s IH]; intros f; simpl.
  - rewrite orb_false_r. split.
    + intros H. by exists [], [].
    + intros (a & b & Hab & H). symmetry in Hab.
      apply app_eq_nil in Hab as [-> ->]. done.
  - rewrite orb_true_iff, existsb_fmap, IH. simpl. split.
    + intros [H|(a & b & -> & H)].
      * by exists [], (c :: s).
      * by exists (c :: a), b.
    + intros (a & b & Hab & H). destruct a as [|x a]; simpl in Hab.
      * left. by subst b.
      * right. injection Hab as -> ->. by exists a, b.
Qed.

Lemma matchb_Concat r1 r2 pre s post :
  matchb (Concat r1 r2) pre s post = true
  ↔ ∃ s1 s2, s = s1 ++ s2
             ∧ matchb r1 pre s1 (s2 ++ post) = true
             ∧ matchb r2 (pre ++ s1) s2 post = true.
Proof.
  simpl. rewrite existsb_splits. split.
  - intros (a & b & -> & H). simpl in H. exists a, b.
    destruct (matchb r1 pre a (b ++ post)); [done|discriminate].
  - intros (a & b & -> & H1 & H2). exists a, b. simpl. by rewrite H1.
Qed.

Lemma matchb_concat_of_app ps qs : ∀ pre s post,
  matchb (concat_of (ps ++ qs)) pre s post = true
  ↔ ∃ s1 s2, s = s1 ++ s2
             ∧ matchb (concat_of ps) pre s1 (s2 ++ post) = true
             ∧ matchb (concat_of qs) (pre ++ s1) s2 post = true.
Proof.
  induction ps as [|p ps IH]; intros pre s post.
  - simpl. split.
    + intros H. exists [], s. rewrite app_nil_r. by rewrite bool_decide_eq_true.
    + intros (s1 & s2 & -> & H1 & H2). apply bool_decide_eq_true in H1 as ->.
      by rewrite app_nil_r in H2.
  - change (concat_of ((p :: ps) ++ qs)) with (Concat p (concat_of (ps ++ qs))).
    change (concat_of (p :: ps)) with (Concat p (concat_of ps)).
    rewrite matchb_Concat. split.
    + intros (a & b & -> & Ha & Hb).
      apply IH in Hb as (b1 & b2 & -> & Hb1 & Hb2).
      rewrite <- app_assoc in Ha.
      exists (a ++ b1), b2. split; [by rewrite app_assoc|].
      split; [|by rewrite app_assoc].
      apply matchb_Concat. by exists a, b1.
    + intros (s1 & s2 & -> & H1 & H2).
      apply matchb_Concat in H1 as (a & b1 & -> & Ha & Hb1).
      rewrite app_assoc in H2.
      exists a, (b1 ++ s2). split; [by rewrite app_assoc|].
      rewrite <- app_assoc. split; [done|].
      apply IH. by exists b1, s2.
Qed.

Lemma search_spec r text :
  search r text = true
  ↔ ∃ pre s post, text = pre ++ s ++ post ∧ matchb r pre s post = true.
Proof.
  unfold search. rewrite existsb_splits. split.
  - intros (pre & rest & -> & H). simpl in H.
    apply existsb_splits in H as (a & b & -> & H). by exists pre, a, b.
  - intros (pre & a & b & -> & H). exists pre, (a ++ b). split; [done|].
    simpl. apply existsb_splits. by exists a, b.
Qed.

(** An expression that is a start anchor, some pieces and an end anchor has
    a match in a text exactly when its pieces match the whole text. *)
Lemma search_anchored pieces text :
  search (concat_of (BeginText :: pieces ++ [EndText])) text
  = matchb (concat_of pieces) [] text [].
Proof.
  apply eq_true_iff_eq. rewrite search_spec. split.
  - intros (pre & s & post & -> & H).
    change (concat_of (BeginText :: pieces ++ [EndText]))
      with (Concat BeginText (concat_of (pieces ++ [EndText]))) in H.
    apply matchb_Concat in H as (s1 & s2 & -> & H1 & H2).
    simpl in H1. apply bool_decide_eq_true in H1 as [-> ->].
    apply matchb_concat_of_app in H2 as (a & b & -> & Ha & Hb).
    change (concat_of [EndText]) with (Concat EndText EmptyMatch) in Hb.
    apply matchb_Concat in Hb as (b1 & b2 & -> & Hb1 & Hb2).
    simpl in Hb1, Hb2. apply bool_decide_eq_true in Hb1 as [-> Hp].
    apply bool_decide_eq_true in Hb2 as ->. simpl in *. subst post.
    by rewrite !app_nil_r in *.
  - intros H. exists [], text, []. split; [by rewrite app_nil_r|].
    change (concat_of (BeginText :: pieces ++ [EndText]))
      with (Concat BeginText (concat_of (pieces ++ [EndText]))).
    apply matchb_Concat. exists [], text. split; [done|].
    split; [done|].
    apply matchb_concat_of_app. exists text, []. rewrite !app_nil_r.
    split; [done|]. split; done.
Qed.

(** A run of literals matches itself and nothing else. *)
Lemma matchb_literals t : ∀ pre s post,
  matchb (concat_of (map Literal t)) pre s post = bool_decide (s = t).
Proof.
  induction t as [|c t IH]; intros pre s post.
  { simpl. by apply bool_decide_ext. }
  apply eq_true_iff_eq.
  change (concat_of (map Literal (c :: t)))
    with (Concat (Literal c) (concat_of (map Literal t))).
  rewrite matchb_Concat, bool_decide_eq_true. split.
  - intros (s1 & s2 & -> & H1 & H2). simpl in H1.
    apply bool_decide_eq_true in H1 as ->. rewrite IH in H2.
    apply bool_decide_eq_true in H2 as ->. done.
  - intros ->. exists [c], t. split; [done|].
    split; [simpl; by apply bool_decide_eq_true|].
    rewrite IH. by apply bool_decide_eq_true.
Qed.

(** ** The matcher decides the matching relation *)

Section IterationDecided.
Variable m : gostring → gostring → gostring → bool.
Variable R : gostring → gostring → gostring → Prop.
Hypothesis m_decides : ∀ pre s post, m pre s post = true ↔ R pre s post.

Lemma exactly_match_iterate n : ∀ pre s post,
  exactly_match m n pre s post = true ↔ iterate R n pre s post.
Proof.
  induction n as [|n IH]; intros pre s post; cbn [exactly_match].
  - rewrite bool_decide_eq_true. split.
    + intros ->. constructor.
    + by inversion 1.
  - rewrite existsb_splits. split.
    + intros (s1 & s2 & -> & H). cbn [fst snd] in H.
      destruct (m pre s1 (s2 ++ post)) eqn:Hm; [|discriminate].
      constructor; [by apply m_decides|by apply IH].
    + inversion 1 as [|n' pre' s1 s2 post' HR Hit]; subst.
      exists s1, s2. split; [done|]. cbn [fst snd].
      apply m_decides in HR. rewrite HR. by apply IH.
Qed.

Lemma star_walk_spec rest : ∀ pre acc post,
  star_walk m pre acc rest post = true
  ↔ ∃ a b, rest = a ++ b
           ∧ m pre (acc ++ a) (b ++ post) = true
           ∧ star_match m (pre ++ acc ++ a) b post = true.
Proof.
  induction rest as [|d rest IH]; intros pre acc post; cbn [star_walk].
  - split.
    + intros H. exists [], []. by rewrite !app_nil_r.
    + intros (a & b & Hab & H & _). symmetry in Hab.
      apply app_eq_nil in Hab as [-> ->]. by rewrite app_nil_r in H.
  - split.
    + destruct (m pre acc ((d :: rest) ++ post)) eqn:Hm.
      * destruct (star_walk m (pre ++ acc) [d] rest post) eqn:Hw.
        -- intros _. exists [], (d :: rest). rewrite !app_nil_r. by split.
        -- intros H. apply IH in H as (a & b & -> & H1 & H2).
           exists (d :: a), b. rewrite <- !app_assoc in H1, H2. by split.
      * intros H. apply IH in H as (a & b & -> & H1 & H2).
        exists (d :: a), b. rewrite <- !app_assoc in H1, H2. by split.
    + intros (a & b & Hab & H1 & H2). destruct a as [|x a]; cbn [app] in Hab.
      * subst b. rewrite !app_nil_r in H1, H2. rewrite H1.
        cbn [star_match] in H2. by rewrite H2.
      * injection Hab as <- ->.
        assert (Hw : star_walk m pre (acc ++ [d]) (a ++ b) post = true).
        { apply IH. exists a, b. rewrite <- !app_assoc. by split. }
        rewrite Hw. by destruct (if m pre acc _ then _ else false).
Qed.

Lemma star_match_iterate pre s post :
  star_match m pre s post = true ↔ ∃ n, iterate R n pre s post.
Proof.
  split.
  - remember (length s) as k eqn:Hk. revert pre s Hk.
    induction k as [k IH] using lt_wf_ind. intros pre s Hk H.
    destruct s as [|c s]; [exists 0; constructor|].
    cbn [star_match] in H. apply star_walk_spec in H as (a & b & -> & H1 & H2).
    apply (IH (length b)) in H2 as [n Hn]; [|subst k; cbn; rewrite length_app; lia|done].
    exists (S n). change (c :: a ++ b) with ((c :: a) ++ b).
    constructor; [by apply m_decides|]. exact Hn.
  - intros [n H]. induction H as [|n pre s1 s2 post HR Hit IH]; [done|].
    destruct s1 as [|c a].
    + by rewrite app_nil_r in IH.
    + cbn [app star_match]. apply star_walk_spec. exists a, s2.
      split; [done|]. split; [by apply m_decides|]. exact IH.
Qed.

Lemma upto_match_iterate n : ∀ pre s post,
  upto_match m n pre s post = true ↔ ∃ k, k ≤ n ∧ iterate R k pre s post.
Proof.
  induction n as [|n IH]; intros pre s post; cbn [upto_match].
  - rewrite bool_decide_eq_true. split.
    + intros ->. exists 0. split; [done|constructor].
    + intros (k & Hk & H). assert (k = 0) as -> by lia. by inversion H.
  - split.
    + case_bool_decide as Hs.
      { intros _. subst s. exists 0. split; [lia|constructor]. }
      rewrite existsb_splits. intros (s1 & s2 & -> & H). cbn [fst snd] in H.
      destruct (m pre s1 (s2 ++ post)) eqn:Hm; [|discriminate].
      apply IH in H as (k & Hk & Hit). exists (S k). split; [lia|].
      constructor; [by apply m_decides|done].
    + intros (k & Hk & H). case_bool_decide as Hs; [done|].
      inversion H as [|k' pre' s1 s2 post' HR Hit]; subst; [done|].
      apply existsb_splits. exists s1, s2. split; [done|]. cbn [fst snd].
      apply m_decides in HR. rewrite HR. apply IH. exists k'. split; [lia|done].
Qed.

Lemma iterate_add a : ∀ b pre s post,
  iterate R (a + b) pre s post
  ↔ ∃ s1 s2, s = s1 ++ s2
             ∧ iterate R a pre s1 (s2 ++ post)
             ∧ iterate R b (pre ++ s1) s2 post.
Proof.
  induction a as [|a IH]; intros b pre s post; cbn [Nat.add].
  - split.
    + intros H. exists [], s. rewrite app_nil_r. split; [done|]. split; [constructor|done].
    + intros (s1 & s2 & -> & H1 & H2). inversion H1; subst.
      by rewrite app_nil_r in H2.
  - split.
    + inversion 1 as [|n pre' s1 s2 post' HR Hit]; subst.
      apply IH in Hit as (t1 & t2 & -> & Ht1 & Ht2).
      exists (s1 ++ t1), t2. rewrite <- !app_assoc in *. split; [done|].
      split; [|done]. by constructor.
    + intros (s1 & s2 & -> & H1 & H2).
      inversion H1 as [|n pre' t1 t2 post' HR Hit]; subst.
      rewrite <- !app_assoc in *. constructor; [by rewrite <- app_assoc|].
      apply IH. exists t2, s2. rewrite app_assoc in H2. by split.
Qed.
End IterationDecided.

(** The matcher answers true exactly on the pieces of text that the
    expression matches. *)
Theorem matchb_matches r : ∀ pre s post,
  matchb r pre s post = true ↔ matches r pre s post.
Proof.
  induction r as [|c|ranges| | |r IH|r IH|r IH|r IH|min max r IH|r1 IH1 r2 IH2|r1 IH1 r2 IH2];
    intros pre s post; cbn [matchb matches].
  - apply bool_decide_eq_true.
  - apply bool_decide_eq_true.
  - split.
    + destruct s as [|c [|]]; try discriminate. intros H. by exists c.
    + by intros (c & -> & H).
  - apply bool_decide_eq_true.
  - apply bool_decide_eq_true.
  - apply IH.
  - by apply star_match_iterate.
  - rewrite existsb_splits. split.
    + intros (s1 & s2 & -> & H). cbn [fst snd] in H.
      destruct (matchb r pre s1 (s2 ++ post)) eqn:Hm; [|discriminate].
      apply (star_match_iterate _ _ IH) in H as [n Hn].
      exists n. constructor; [by apply IH|done].
    + intros [n H]. inversion H as [|n' pre' s1 s2 post' HR Hit]; subst.
      exists s1, s2. split; [done|]. cbn [fst snd].
      apply IH in HR. rewrite HR. apply (star_match_iterate _ _ IH). by exists n.
  - case_bool_decide as Hs; [tauto|]. rewrite IH. tauto.
  - rewrite existsb_splits. split.
    + intros (s1 & s2 & -> & H). cbn [fst snd] in H.
      destruct (exactly_match (matchb r) min pre s1 (s2 ++ post)) eqn:He;
        [|discriminate].
      apply (exactly_match_iterate _ _ IH) in He.
      destruct max as [max|].
      * apply (upto_match_iterate _ _ IH) in H as (k & Hk & Hit).
        exists k. split; [|done]. apply (iterate_add _ min). by exists s1, s2.
      * apply (star_match_iterate _ _ IH) in H as [k Hit].
        exists k. split; [|done]. apply (iterate_add _ min). by exists s1, s2.
    + intros (n & H & Hmax). apply iterate_add in H as (s1 & s2 & -> & H1 & H2).
      exists s1, s2. split; [done|]. cbn [fst snd].
      apply (exactly_match_iterate _ _ IH) in H1. rewrite H1.
      destruct max as [max|].
      * apply (upto_match_iterate _ _ IH). by exists n.
      * apply (star_match_iterate _ _ IH). by exists n.
  - rewrite existsb_splits. split.
    + intros (s1 & s2 & -> & H). cbn [fst snd] in H.
      destruct (matchb r1 pre s1 (s2 ++ post)) eqn:Hm; [|discriminate].
      exists s1, s2. split; [done|]. split; [by apply IH1|by apply IH2].
    + intros (s1 & s2 & -> & H1 & H2). exists s1, s2. split; [done|].
      cbn [fst snd]. apply IH1 in H1. rewrite H1. by apply IH2.
  - rewrite <- IH1, <- IH2. destruct (matchb r1 pre s post); [tauto|]. split; [auto|].
    by intros [?|?].
Qed.


(** ** Parsing a pattern of plain bytes *)

Section PlainPatterns.
Variable parse_group : gostring → option (regex * gostring).

Lemma parse_atom_plain c rest :
  plain_char c = true → parse_atom parse_group (c :: rest) = Some (Literal c, rest).
Proof.
  destruct c as [[] [] [] [] [] [] [] []]; intros H;
    try discriminate H; reflexivity.
Qed.

Lemma repetition_op_plain c rest :
  plain_char c = true ∨ c = "$"%char → repetition_op (c :: rest) = None.
Proof.
  intros [H| ->]; [|reflexivity].
  destruct c as [[] [] [] [] [] [] [] []]; try discriminate H; reflexivity.
Qed.

Lemma apply_repetition_plain a c rest :
  plain_char c = true ∨ c = "$"%char →
  apply_repetition a (c :: rest) = Some (a, c :: rest).
Proof. intros H. unfold apply_repetition. by rewrite repetition_op_plain. Qed.

Lemma parse_concat_plain fuel c rest :
  plain_char c = true →
  parse_concat parse_group (S fuel) (c :: rest)
  = '(piece, rest') ← apply_repetition (Literal c) rest;
    '(pieces, rest'') ← parse_concat parse_group fuel rest';
    Some (piece :: pieces, rest'').
Proof.
  intros H.
  transitivity ('(a, rest0) ← parse_atom parse_group (c :: rest);
                '(piece, rest') ← apply_repetition a rest0;
                '(pieces, rest'') ← parse_concat parse_group fuel rest';
                Some (piece :: pieces, rest'')).
  - destruct c as [[] [] [] [] [] [] [] []]; try discriminate H; reflexivity.
  - by rewrite parse_atom_plain.
Qed.

Lemma parse_concat_nil fuel : parse_concat parse_group fuel [] = Some ([], []).
Proof. by destruct fuel. Qed.

Lemma parse_concat_begin fuel rest :
  parse_concat parse_group (S fuel) ("^"%char :: rest)
  = '(piece, rest') ← apply_repetition BeginText rest;
    '(pieces, rest'') ← parse_concat parse_group fuel rest';
    Some (piece :: pieces, rest'').
Proof. reflexivity. Qed.

Lemma head_plain_or_dollar (t : gostring) :
  Forall (λ c, plain_char c = true) t →
  ∃ c rest, t ++ str "$" = c :: rest ∧ (plain_char c = true ∨ c = "$"%char).
Proof.
  intros Ht. destruct t as [|c t]; simpl.
  - exists "$"%char, []. auto.
  - exists c, (t ++ str "$"). apply Forall_cons in Ht as [Hc _]. auto.
Qed.

Lemma parse_concat_literals t : ∀ fuel,
  Forall (λ c, plain_char c = true) t →
  length t < fuel →
  parse_concat parse_group fuel (t ++ str "$")
  = Some (map Literal t ++ [EndText], []).
Proof.
  induction t as [|c t IH]; intros fuel Ht Hfuel.
  - destruct fuel as [|fuel]; [simpl in Hfuel; lia|].
    cbn. by rewrite parse_concat_nil.
  - destruct fuel as [|fuel]; [simpl in Hfuel; lia|].
    apply Forall_cons in Ht as [Hc Ht].
    change ((c :: t) ++ str "$") with (c :: (t ++ str "$")).
    rewrite parse_concat_plain by done.
    destruct (head_plain_or_dollar t Ht) as (c' & rest & E & Hc').
    rewrite E, apply_repetition_plain by done. rewrite <- E.
    cbn. rewrite IH by (simpl in Hfuel; first [done|lia]). reflexivity.
Qed.
End PlainPatterns.

(** The pattern [^t$] of a plain [t] parses to the start anchor, the bytes of
    [t] as literals, and the end anchor. *)
Lemma parse_anchored_literals t :
  Forall (λ c, plain_char c = true) t →
  parse (str "^" ++ t ++ str "$")
  = Some (concat_of (BeginText :: map Literal t ++ [EndText])).
Proof.
  intros Ht. unfold parse.
  change (str "^" ++ t ++ str "$") with ("^"%char :: (t ++ str "$")).
  cbn [parse_alternation length]. rewrite parse_concat_begin.
  destruct (head_plain_or_dollar t Ht) as (c' & rest & E & Hc').
  rewrite E, apply_repetition_plain by done. rewrite <- E. cbn [mbind option_bind].
  rewrite parse_concat_literals; [reflexivity|done|].
  rewrite length_app. simpl. lia.
Qed.

(** ** Parsing: what an end anchor appended to a pattern changes *)

Lemma span_digits_dollar s :
  span_digits (s ++ str "$") = ((span_digits s).1, (span_digits s).2 ++ str "$").
Proof.
  induction s as [|c s IH]; [reflexivity|].
  cbn [app span_digits]. destruct (is_digit c); [|reflexivity].
  by rewrite IH.
Qed.

Lemma parseInt_dollar s : parseInt (s ++ str "$") = with_dollar (parseInt s).
Proof.
  unfold parseInt. rewrite span_digits_dollar.
  destruct (span_digits s) as [[|d [|d' ds]] rest]; cbn [fst snd]; [reflexivity| |].
  - destruct d as [[] [] [] [] [] [] [] []]; reflexivity.
  - destruct d as [[] [] [] [] [] [] [] []]; reflexivity.
Qed.

Lemma eat_dollar c s :
  c ≠ "$"%char → eat c (s ++ str "$") = (λ r, r ++ str "$") <$> eat c s.
Proof.
  intros Hc. destruct s as [|c' s].
  - change (eat c ([] ++ str "$"))
      with (if Ascii.eqb "$" c then Some ([] : gostring) else None).
    destruct (Ascii.eqb_spec "$" c); [congruence|done].
  - change (eat c ((c' :: s) ++ str "$"))
      with (if Ascii.eqb c' c then Some (s ++ str "$") else None).
    cbn [eat]. by destruct (Ascii.eqb c' c).
Qed.

Lemma parseRepeat_dollar s :
  parseRepeat (s ++ str "$") = with_dollar (parseRepeat s).
Proof.
  unfold parseRepeat. rewrite eat_dollar by done.
  destruct (eat "{" s) as [s1|]; [|reflexivity]. cbn [fmap option_fmap option_map mbind option_bind].
  rewrite parseInt_dollar.
  destruct (parseInt s1) as [[min s2]|]; [|reflexivity].
  cbn [with_dollar fmap option_fmap option_map mbind option_bind fst snd].
  rewrite !eat_dollar by done.
  destruct (eat "}" s2) as [rest|]; [reflexivity|].
  destruct (eat "," s2) as [s3|]; [|reflexivity].
  cbn [fmap option_fmap option_map mbind option_bind].
  rewrite eat_dollar by done.
  destruct (eat "}" s3) as [rest|]; [reflexivity|].
  cbn [fmap option_fmap option_map]. rewrite parseInt_dollar.
  destruct (parseInt s3) as [[max s4]|]; [|reflexivity].
  cbn [with_dollar fmap option_fmap option_map mbind option_bind fst snd].
  rewrite eat_dollar by done.
  by destruct (eat "}" s4).
Qed.

Lemma repetition_op_dollar s :
  repetition_op (s ++ str "$") = with_dollar (repetition_op s).
Proof.
  destruct s as [|c s]; [reflexivity|].
  assert (H : c = "{"%char ∨ c ≠ "{"%char) by (destruct (decide (c = "{"%char)); auto).
  destruct H as [->|H].
  - change (repetition_op (("{"%char :: s) ++ str "$"))
      with ('(min, max, rest) ← parseRepeat (("{"%char :: s) ++ str "$");
            Some (RepCount min max, rest)).
    rewrite parseRepeat_dollar.
    change (repetition_op ("{"%char :: s))
      with ('(min, max, rest) ← parseRepeat ("{"%char :: s);
            Some (RepCount min max, rest)).
    by destruct (parseRepeat ("{"%char :: s)) as [[[min max] rest]|].
  - destruct c as [[] [] [] [] [] [] [] []]; try reflexivity. done.
Qed.

Lemma apply_repetition_dollar a s :
  apply_repetition a (s ++ str "$") = with_dollar (apply_repetition a s).
Proof.
  unfold apply_repetition. rewrite repetition_op_dollar.
  destruct (repetition_op s) as [[op rest]|]; [|reflexivity].
  cbn [with_dollar fmap option_fmap option_map fst snd].
  rewrite eat_dollar by done.
  assert (E : default (rest ++ str "$") ((λ r, r ++ str "$") <$> eat "?" rest)
              = default rest (eat "?" rest) ++ str "$")
    by (by destruct (eat "?" rest)).
  rewrite E, repetition_op_dollar. clear E.
  destruct (repetition_op (default rest (eat "?" rest))) as [[op' rest']|];
    [reflexivity|].
  cbn [with_dollar fmap option_fmap option_map].
  destruct op; try reflexivity.
  by destruct (count_ok _ _ && _).
Qed.

Lemma parseClassChar_dollar s c rest :
  parseClassChar s = Some (c, rest) →
  parseClassChar (s ++ str "$") = Some (c, rest ++ str "$").
Proof.
  destruct s as [|c0 s0]; [discriminate|].
  destruct (decide (c0 = "\"%char)) as [->|H].
  - destruct s0 as [|c1 s1]; [discriminate|].
    unfold parseClassChar. cbn [app].
    destruct (is_ascii7 c1 && negb (is_alnum c1)); [|discriminate].
    by intros [= <- <-].
  - destruct c0 as [[] [] [] [] [] [] [] []]; try done;
      unfold parseClassChar; cbn [app];
      (destruct (is_ascii7 _); [|discriminate]); by intros [= <- <-].
Qed.

Lemma named_class_dollar c s :
  is_prefix (str "[:") ((c :: s) ++ str "$") = is_prefix (str "[:") (c :: s).
Proof.
  destruct s as [|c' s]; cbn; by repeat case_bool_decide.
Qed.

Lemma range_follows_dollar t :
  t ≠ ["-"%char] → range_follows (t ++ str "$") = range_follows t.
Proof.
  destruct t as [|c1 [|c2 t]]; [reflexivity| |reflexivity].
  intros H. cbn. destruct (Ascii.eqb_spec c1 "-"); [congruence|done].
Qed.

Lemma parseClassItems_dash fuel : parseClassItems fuel false ["-"%char] = None.
Proof. by destruct fuel as [|[|fuel]]. Qed.

Lemma parseClassItems_dollar fuel : ∀ first s ranges rest fuel',
  parseClassItems fuel first s = Some (ranges, rest) →
  fuel ≤ fuel' →
  parseClassItems fuel' first (s ++ str "$") = Some (ranges, rest ++ str "$").
Proof.
  induction fuel as [|fuel IH]; intros first s ranges rest fuel' H Hfuel;
    [discriminate|].
  destruct fuel' as [|fuel']; [lia|].
  destruct s as [|c s0]; [discriminate|].
  cbn [parseClassItems] in H.
  change (parseClassItems (S fuel') first ((c :: s0) ++ str "$"))
    with (if Ascii.eqb c "]" && negb first then Some ([], s0 ++ str "$")
          else if is_prefix (str "[:") ((c :: s0) ++ str "$") then None
          else
            '(lo, t) ← parseClassChar ((c :: s0) ++ str "$");
            if range_follows t then
              '(hi, t2) ← parseClassChar (drop 1 t);
              if nat_of_ascii hi <? nat_of_ascii lo then None
              else
                '(ranges, rest') ← parseClassItems fuel' false t2;
                Some ((lo, hi) :: ranges, rest')
            else
              '(ranges, rest') ← parseClassItems fuel' false t;
              Some ((lo, lo) :: ranges, rest')).
  destruct (Ascii.eqb c "]" && negb first); [by injection H as <- <-|].
  rewrite named_class_dollar.
  destruct (is_prefix (str "[:") (c :: s0)); [discriminate|].
  destruct (parseClassChar (c :: s0)) as [[lo t]|] eqn:Hlo; [|discriminate].
  rewrite (parseClassChar_dollar _ _ _ Hlo).
  cbn [mbind option_bind] in H |- *.
  destruct (decide (t = ["-"%char])) as [->|Hdash].
  { cbn in H. by rewrite parseClassItems_dash in H. }
  rewrite range_follows_dollar by done.
  destruct (range_follows t) eqn:Hrange.
  - assert (Hdrop : drop 1 (t ++ str "$") = drop 1 t ++ str "$").
    { destruct t; [discriminate Hrange|reflexivity]. }
    rewrite Hdrop.
    destruct (parseClassChar (drop 1 t)) as [[hi t2]|] eqn:Hhi; [|discriminate].
    rewrite (parseClassChar_dollar _ _ _ Hhi).
    cbn [mbind option_bind] in H |- *.
    destruct (nat_of_ascii hi <? nat_of_ascii lo); [discriminate|].
    destruct (parseClassItems fuel false t2) as [[rs r]|] eqn:Hrec; [|discriminate].
    cbn in H. injection H as <- <-.
    by rewrite (IH _ _ _ _ fuel' Hrec) by lia.
  - destruct (parseClassItems fuel false t) as [[rs r]|] eqn:Hrec; [|discriminate].
    cbn in H. injection H as <- <-.
    by rewrite (IH _ _ _ _ fuel' Hrec) by lia.
Qed.

Lemma parseClass_dollar s r rest :
  parseClass s = Some (r, rest) →
  parseClass (s ++ str "$") = Some (r, rest ++ str "$").
Proof.
  unfold parseClass. intros H.
  assert (Hneg : is_prefix (str "^") (s ++ str "$") = is_prefix (str "^") s).
  { destruct s as [|c s]; [reflexivity|]. cbn. by case_bool_decide. }
  rewrite Hneg. destruct (is_prefix (str "^") s); [discriminate|].
  destruct (parseClassItems (length s) true s) as [[rs r']|] eqn:Hitems;
    [|discriminate].
  cbn in H. injection H as <- <-.
  rewrite (parseClassItems_dollar _ _ _ _ _ (length (s ++ str "$")) Hitems);
    [reflexivity|].
  rewrite length_app. lia.
Qed.

Section EndAnchorAppended.
(** Two parsers of groups, the second of which parses, when ["$"] is
    appended, what the first parses up to a closing parenthesis. *)
Variables alt alt' : gostring → option (regex * gostring).
Hypothesis alt_dollar : ∀ s r rest,
  alt s = Some (r, ")"%char :: rest) →
  alt' (s ++ str "$") = Some (r, ")"%char :: rest ++ str "$").

Lemma parse_atom_dollar s a rest :
  parse_atom alt s = Some (a, rest) →
  parse_atom alt' (s ++ str "$") = Some (a, rest ++ str "$").
Proof.
  destruct s as [|c s0]; [discriminate|].
  unfold parse_atom. cbn [app].
  destruct (Ascii.eqb c "(").
  { assert (E : is_prefix (str "?") (s0 ++ str "$") = is_prefix (str "?") s0).
    { destruct s0 as [|c1 s1]; [reflexivity|]. cbn. by case_bool_decide. }
    rewrite E. destruct (is_prefix (str "?") s0); [discriminate|].
    destruct (alt s0) as [[r rest']|] eqn:Hg; [|discriminate].
    cbn [mbind option_bind].
    destruct rest' as [|c1 rest'']; [discriminate|]. cbn [eat].
    destruct (Ascii.eqb_spec c1 ")") as [->|]; [|discriminate].
    intros [= <- <-]. by rewrite (alt_dollar _ _ _ Hg). }
  destruct (Ascii.eqb c "["); [apply parseClass_dollar|].
  destruct (Ascii.eqb c "^"); [by intros [= <- <-]|].
  destruct (Ascii.eqb c "$"); [by intros [= <- <-]|].
  destruct (Ascii.eqb c "\").
  { destruct s0 as [|c1 s1]; [discriminate|]. cbn [app].
    destruct (is_ascii7 c1 && negb (is_alnum c1)); [|discriminate].
    by intros [= <- <-]. }
  destruct (Ascii.eqb c "{").
  { change (c :: s0 ++ str "$") with ((c :: s0) ++ str "$").
    rewrite parseRepeat_dollar.
    destruct (parseRepeat (c :: s0)); [discriminate|]. by intros [= <- <-]. }
  destruct (plain_char c); [|discriminate]. by intros [= <- <-].
Qed.

(** What the end anchor adds to a sequence that stopped with [rest] left:
    a last piece when the sequence reached the end of the pattern. *)
Lemma parse_concat_dollar fuel : ∀ s pieces rest fuel',
  parse_concat alt fuel s = Some (pieces, rest) →
  fuel ≤ fuel' →
  parse_concat alt' (S fuel') (s ++ str "$")
  = Some (match rest with
          | [] => (pieces ++ [EndText], [])
          | _ => (pieces, rest ++ str "$")
          end).
Proof.
  induction fuel as [|fuel IH]; intros s pieces rest fuel' H Hfuel.
  - destruct s as [|c s0].
    + injection H as <- <-. cbn. by rewrite parse_concat_nil.
    + cbn [parse_concat] in H. cbn [app parse_concat].
      destruct (Ascii.eqb c "|" || Ascii.eqb c ")"); [|discriminate].
      by injection H as <- <-.
  - destruct s as [|c s0].
    + injection H as <- <-. cbn. by rewrite parse_concat_nil.
    + cbn [parse_concat] in H. cbn [app parse_concat].
      destruct (Ascii.eqb c "|" || Ascii.eqb c ")"); [by injection H as <- <-|].
      destruct (parse_atom alt (c :: s0)) as [[a r0]|] eqn:Ha; [|discriminate].
      change (c :: s0 ++ str "$") with ((c :: s0) ++ str "$").
      rewrite (parse_atom_dollar _ _ _ Ha).
      cbn [mbind option_bind] in H |- *.
      rewrite apply_repetition_dollar.
      destruct (apply_repetition a r0) as [[p r1]|]; [|discriminate].
      cbn [with_dollar fmap option_fmap option_map mbind option_bind fst snd] in H |- *.
      destruct (parse_concat alt fuel r1) as [[ps r2]|] eqn:Hrec; [|discriminate].
      cbn in H. injection H as <- <-.
      destruct fuel' as [|fuel']; [lia|].
      rewrite (IH _ _ _ fuel' Hrec) by lia.
      by destruct r2.
Qed.
End EndAnchorAppended.

Lemma parse_alternation_dollar fuel : ∀ fuel' s r rest,
  fuel ≤ fuel' →
  parse_alternation fuel s = Some (r, ")"%char :: rest) →
  parse_alternation fuel' (s ++ str "$") = Some (r, ")"%char :: rest ++ str "$").
Proof.
  induction fuel as [|fuel IH]; intros fuel' s r rest Hfuel H; [discriminate|].
  destruct fuel' as [|fuel']; [lia|].
  cbn [parse_alternation] in H |- *.
  destruct (parse_concat (parse_alternation fuel) (length s) s)
    as [[pieces rest0]|] eqn:Hc; [|discriminate].
  rewrite length_app. change (length (str "$")) with 1. rewrite Nat.add_1_r.
  rewrite (parse_concat_dollar (parse_alternation fuel) (parse_alternation fuel')
             (λ s r rest, IH fuel' s r rest ltac:(lia)) _ _ _ _ (length s) Hc)
    by done.
  cbn [mbind option_bind] in H |- *.
  destruct rest0 as [|c rest1]; [discriminate H|].
  change (eat "|" ((c :: rest1) ++ str "$"))
    with (if Ascii.eqb c "|" then Some (rest1 ++ str "$") else None).
  cbn [eat] in H. destruct (Ascii.eqb c "|").
  - destruct (parse_alternation fuel rest1) as [[r2 rest2]|] eqn:Hr; [|discriminate].
    cbn in H. injection H as <- ->.
    by rewrite (IH fuel' _ _ _ ltac:(lia) Hr).
  - injection H as <- -> ->. reflexivity.
Qed.

Lemma parse_of_sequence s pieces :
  parse_sequence s = Some pieces → parse s = Some (concat_of pieces).
Proof.
  unfold parse_sequence, parse. cbn [parse_alternation].
  destruct (parse_concat _ _ _) as [[ps rest]|]; [|discriminate].
  cbn. destruct rest; [|discriminate]. by intros [= ->].
Qed.

(** A pattern that parses as a sequence of pieces and does not start with a
    repetition operator, put between "^" and "$", parses as the start
    anchor, those pieces and the end anchor. *)
Lemma parse_sequence_anchored body pieces :
  parse_sequence body = Some pieces →
  repetition_op body = None →
  parse_sequence (str "^" ++ body ++ str "$")
  = Some (BeginText :: pieces ++ [EndText]).
Proof.
  unfold parse_sequence. intros Hseq Hop.
  destruct (parse_concat (parse_alternation (length body)) (length body) body)
    as [[ps rest]|] eqn:Hc; [|discriminate].
  cbn in Hseq. destruct rest; [|discriminate]. injection Hseq as ->.
  change (str "^" ++ body ++ str "$") with ("^"%char :: (body ++ str "$")).
  cbn [length]. rewrite length_app. change (length (str "$")) with 1.
  rewrite Nat.add_1_r. rewrite parse_concat_begin.
  rewrite apply_repetition_dollar. unfold apply_repetition at 1. rewrite Hop.
  cbn [with_dollar fmap option_fmap option_map mbind option_bind fst snd].
  rewrite (parse_concat_dollar (parse_alternation (length body))
             (parse_alternation (S (S (length body))))
             (λ s r rest,
                parse_alternation_dollar (length body) (S (S (length body)))
                  s r rest ltac:(lia))
             _ _ _ _ (length body) Hc) by done.
  reflexivity.
Qed.

(** ** The scan: what a substitution cannot touch *)

(** A substitution starts at a colon. *)
Lemma substitution_starts_at_colon (path kw frag : gostring) f l :
  (kw, frag) ∈ keywords → f ≤ length path →
  path = take f path ++ kw ++ drop l path →
  path !! f = Some ":"%char.
Proof.
  intros Hk Hf Hp. rewrite Hp.
  rewrite lookup_app_r by (rewrite length_take; lia).
  rewrite length_take_le, Nat.sub_diag by lia.
  unfold keywords in Hk. rewrite !elem_of_cons, elem_of_nil in Hk.
  by destruct Hk as [[= -> ->]|[[= -> ->]|[]]].
Qed.

(** The text from a colon at index 0 up to the next colon is never
    rewritten: [firstIndex = 0] counts as "no token". *)
Lemma leading_token_kept (a : gostring) :
  Forall (λ c, c ≠ ":"%char) a →
  ∀ fuel i path vars out vars',
    firstIndex vars ≤ i →
    (∃ rest, path = ":"%char :: a ++ rest) →
    scan_loop fuel i path vars = Some (out, vars') →
    ∃ rest, out = ":"%char :: a ++ rest.
Proof.
  intros Ha. apply (scan_loop_preserves (λ path, ∃ rest, path = ":"%char :: a ++ rest)).
  intros i path kw frag f Hk Hnz Hi Hc He Hfl Hp [rest Hrest].
  pose proof (substitution_starts_at_colon path kw frag f _ Hk ltac:(lia) Hp) as Hcolon.
  assert (Hge : S (length a) ≤ f).
  { destruct (decide (S (length a) ≤ f)) as [|Hlt]; [done|]. exfalso.
    rewrite Hrest in Hcolon. rewrite lookup_cons_ne_0 in Hcolon by done.
    rewrite lookup_app_l in Hcolon by lia.
    apply list_elem_of_lookup_2 in Hcolon.
    rewrite Forall_forall in Ha. by apply Ha in Hcolon. }
  destruct f as [|f']; [done|].
  exists (take (f' - length a) rest ++ frag ++ drop (token_end i path) path).
  rewrite Hrest at 1. cbn [take]. rewrite take_app_ge by lia.
  simpl. by rewrite <- app_assoc.
Qed.


(** ** What [Match] returns *)

Lemma Match_result_pathWithVarsMatcher (m : pathWithVarsMatcher) r :
  Match_result m r
  = (λ u, MatchString (pathWithVarsMatcher_regex m) (Path u)) <$> r_URL r.
Proof. unfold Match_result. cbn. by destruct (r_URL r). Qed.

Lemma Match_result_pathRegexMatcher (m : pathRegexMatcher) r :
  Match_result m r
  = (λ u, MatchString (pathRegexMatcher_regex m) (Path u)) <$> r_URL r.
Proof. unfold Match_result. cbn. by destruct (r_URL r). Qed.

Lemma strings_Compare_0 a b : (strings_Compare a b =? 0)%Z = bool_decide (a = b).
Proof.
  unfold strings_Compare. case_bool_decide; [done|].
  by destruct (gostring_ltb a b).
Qed.


Lemma Match_result_schemeMatcher (m : schemeMatcher) r :
  Match_result m r
  = (λ u, bool_decide (Scheme u ∈ schemeMatcher_set m)) <$> r_URL r.
Proof. unfold Match_result. cbn. by destruct (r_URL r). Qed.

(** ** C2: the two placeholders *)

(** C2.  The matcher of "/users/:number" accepts "/users/42" and rejects
    "/users/abc" and "/users/42/extra"; the matcher of
    "/users/:string/profile" accepts "/users/alice/profile" and rejects
    "/users/42/profile". *)
Theorem placeholder_examples :
  (∃ m, newPathWithVarsMatcher (str "/users/:number") = Some m
        ∧ ∀ scheme header,
            Match_result m (request_for scheme (str "/users/42") header) = Some true
            ∧ Match_result m (request_for scheme (str "/users/abc") header) = Some false
            ∧ Match_result m (request_for scheme (str "/users/42/extra") header)
              = Some false)
  ∧ (∃ m, newPathWithVarsMatcher (str "/users/:string/profile") = Some m
          ∧ ∀ scheme header,
              Match_result m (request_for scheme (str "/users/alice/profile") header)
              = Some true
              ∧ Match_result m (request_for scheme (str "/users/42/profile") header)
                = Some false).
Proof.
  split.
  - eexists. split; [vm_compute; reflexivity|].
    intros scheme header. rewrite !Match_result_pathWithVarsMatcher.
    repeat split; vm_compute; reflexivity.
  - eexists. split; [vm_compute; reflexivity|].
    intros scheme header. rewrite !Match_result_pathWithVarsMatcher.
    repeat split; vm_compute; reflexivity.
Qed.

(** ** C3: a template without placeholder *)





(** The matcher whose expression is the anchored run of literals [t]
    accepts the path [t] and no other. *)
Lemma Match_result_anchored_literals t r :
  Match_result
    (mkPathWithVarsMatcher
       (mkRegexp (str "^" ++ t ++ str "$")
          (concat_of (BeginText :: map Literal t ++ [EndText])))) r
  = (λ u, bool_decide (Path u = t)) <$> r_URL r.
Proof.
  rewrite Match_result_pathWithVarsMatcher.
  unfold MatchString. cbn [prog pathWithVarsMatcher_regex].
  destruct (r_URL r) as [u|]; [|done]. cbn [fmap option_fmap option_map].
  by rewrite search_anchored, matchb_literals.
Qed.

(** ** C9: a colon at index 0 *)

(** C9.  A token whose colon is the first byte of the template is never
    substituted: whatever follows, the scan returns a template that still
    starts with that token.  The template ":number" is compiled to
    "^:number$", whose matcher accepts the path ":number" and no other, so
    not "42". *)
Theorem leading_placeholder_never_substituted :
  (∀ a rest,
     Forall (λ c, c ≠ ":"%char) a →
     ∃ rest', rewrite_template (":"%char :: a ++ rest)
              = Some (":"%char :: a ++ rest'))
  ∧ scan_prefix 1 0 (str ":number") variable_zero
    = Some (1, str ":number", variable_zero)
  ∧ ∃ m, newPathWithVarsMatcher (str ":number") = Some m
         ∧ expr (pathWithVarsMatcher_regex m) = str "^:number$"
         ∧ (∀ r, Match_result m r
                 = (λ u, bool_decide (Path u = str ":number")) <$> r_URL r)
         ∧ (∀ scheme header,
              Match_result m (request_for scheme (str ":number") header) = Some true
              ∧ Match_result m (request_for scheme (str "42") header) = Some false).
Proof.
  split; [|split; [reflexivity|]].
  - intros a rest Ha.
    destruct (rewrite_template_total (":"%char :: a ++ rest)) as [out Hout].
    rewrite Hout. unfold rewrite_template in Hout.
    destruct (scan_loop _ _ _ _) as [[out' v]|] eqn:Hscan; [|discriminate].
    injection Hout as <-.
    apply (leading_token_kept a Ha) in Hscan as [rest' ->]; [by exists rest'|done|].
    by exists rest.
  - eexists. split; [vm_compute; reflexivity|]. split; [reflexivity|].
    assert (Hm := Match_result_anchored_literals (str ":number")).
    split; [exact Hm|].
    intros scheme header. rewrite !Hm. by split.
Qed.

Lemma leading_placeholder_never_substituted_witness :
  ∃ rest', rewrite_template (":"%char :: str "number" ++ str "/:string")
           = Some (":"%char :: str "number" ++ rest').
Proof.
  apply (proj1 leading_placeholder_never_substituted (str "number") (str "/:string")).
  repeat constructor; discriminate.
Defined.

(** ** C10: a keyword before a final slash *)



(** ** Removing the marker "#" *)

Lemma replace_scan_hash s : ∀ n,
  (n < 0)%Z →
  replace_scan (str "#") (str "") 0 n s = filter (λ c, c ≠ "#"%char) s.
Proof.
  induction s as [|c s IH]; intros n Hn; [done|].
  cbn [replace_scan].
  replace (negb (n =? 0)%Z) with true
    by (symmetry; apply negb_true_iff, Z.eqb_neq; lia).
  cbn [andb is_prefix str list_ascii_of_string].
  rewrite filter_cons. case_bool_decide as Hc.
  - subst c. rewrite decide_False by (by intros []).
    cbn. apply IH. lia.
  - rewrite decide_True by congruence. f_equal. by apply IH.
Qed.

(** ** C4: the anchors *)

Lemma MatchString_anchored re pieces text :
  prog re = concat_of (BeginText :: pieces ++ [EndText]) →
  MatchString re text = matchb (concat_of pieces) [] text [].
Proof. unfold MatchString. intros ->. apply search_anchored. Qed.

(** Inside the modelled fragment: a pattern that parses as one sequence of
    pieces and does not begin with a repetition operator is compiled to
    the start anchor, the pieces and the end anchor, and [Match] is true
    exactly when the pieces match the entire request path. *)
Lemma newPathRegexMatcher_sequence path pieces :
  parse_sequence (filter (λ c, c ≠ "#"%char) path) = Some pieces →
  repetition_op (filter (λ c, c ≠ "#"%char) path) = None →
  ∃ m, newPathRegexMatcher path = Some m
       ∧ expr (pathRegexMatcher_regex m)
         = str "^" ++ filter (λ c, c ≠ "#"%char) path ++ str "$"
       ∧ prog (pathRegexMatcher_regex m)
         = concat_of (BeginText :: pieces ++ [EndText])
       ∧ ∀ r, Match_result m r
              = (λ u, matchb (concat_of pieces) [] (Path u) []) <$> r_URL r.
Proof.
  intros Hseq Hop.
  pose proof (parse_of_sequence _ _ (parse_sequence_anchored _ _ Hseq Hop)) as Hparse.
  eexists. split.
  { unfold newPathRegexMatcher, strings_Replace, regexp_MustCompile.
    cbn [str list_ascii_of_string mbind option_bind].
    rewrite replace_scan_hash by lia.
    change ["^"%char] with (str "^"). change ["$"%char] with (str "$").
    rewrite Hparse. reflexivity. }
  split; [reflexivity|]. split; [reflexivity|].
  intros r. rewrite Match_result_pathRegexMatcher.
  destruct (r_URL r) as [u|]; [|done]. cbn [fmap option_fmap option_map].
  by rewrite (MatchString_anchored _ pieces).
Qed.

Lemma newPathWithVarsMatcher_sequence template body pieces :
  rewrite_template template = Some body →
  parse_sequence body = Some pieces →
  repetition_op body = None →
  ∃ m, newPathWithVarsMatcher template = Some m
       ∧ expr (pathWithVarsMatcher_regex m) = str "^" ++ body ++ str "$"
       ∧ prog (pathWithVarsMatcher_regex m)
         = concat_of (BeginText :: pieces ++ [EndText])
       ∧ ∀ r, Match_result m r
              = (λ u, matchb (concat_of pieces) [] (Path u) []) <$> r_URL r.
Proof.
  intros Hbody Hseq Hop.
  pose proof (parse_of_sequence _ _ (parse_sequence_anchored _ _ Hseq Hop)) as Hparse.
  eexists. split.
  { unfold newPathWithVarsMatcher, regexp_MustCompile.
    rewrite Hbody. cbn [mbind option_bind]. rewrite Hparse. reflexivity. }
  split; [reflexivity|]. split; [reflexivity|].
  intros r. rewrite Match_result_pathWithVarsMatcher.
  destruct (r_URL r) as [u|]; [|done]. cbn [fmap option_fmap option_map].
  by rewrite (MatchString_anchored _ pieces).
Qed.

(** C4.  Both constructors put the pattern between "^" and "$" to make
    [Match] a match of the entire path, and for the pattern "/a" it is:
    the path "/ab" is rejected.  They do not group the pattern, though.
    The pattern "a|b" is compiled from the text "^a|b$", in which each
    anchor belongs to one alternative only: its matchers accept the paths
    "ab", "ax" and "xb", none of which "a|b" matches as a whole ("ab" is
    accepted through its proper piece "a" before "b"), where the claim says
    that [Match] is true only when the pattern matches the entire path. *)
Theorem alternation_escapes_the_anchors :
  (∃ m, newPathRegexMatcher (str "a|b") = Some m
        ∧ expr (pathRegexMatcher_regex m) = str "^a|b$"
        ∧ prog (pathRegexMatcher_regex m)
          = Alternate (concat_of [BeginText; Literal "a"])
                      (concat_of [Literal "b"; EndText])
        ∧ Match_result m (request_for (str "http") (str "ab") ∅) = Some true
        ∧ Match_result m (request_for (str "http") (str "ax") ∅) = Some true
        ∧ Match_result m (request_for (str "http") (str "xb") ∅) = Some true
        ∧ matchb (prog (pathRegexMatcher_regex m)) [] (str "ab") [] = false
        ∧ matchb (prog (pathRegexMatcher_regex m)) [] (str "a") (str "b") = true)
  ∧ (∃ m, newPathWithVarsMatcher (str "a|b") = Some m
          ∧ expr (pathWithVarsMatcher_regex m) = str "^a|b$"
          ∧ Match_result m (request_for (str "http") (str "ab") ∅) = Some true
          ∧ Match_result m (request_for (str "http") (str "ax") ∅) = Some true
          ∧ Match_result m (request_for (str "http") (str "xb") ∅) = Some true)
  ∧ (∃ r, parse (str "a|b") = Some r
          ∧ matchb r [] (str "ab") [] = false
          ∧ matchb r [] (str "ax") [] = false
          ∧ matchb r [] (str "xb") [] = false)
  ∧ (∃ m, newPathRegexMatcher (str "/a") = Some m
          ∧ ∀ scheme header,
              Match_result m (request_for scheme (str "/a") header) = Some true
              ∧ Match_result m (request_for scheme (str "/ab") header) = Some false)
  ∧ (∃ m, newPathWithVarsMatcher (str "/a") = Some m
          ∧ ∀ scheme header,
              Match_result m (request_for scheme (str "/a") header) = Some true
              ∧ Match_result m (request_for scheme (str "/ab") header) = Some false).
Proof.
  split; [|split; [|split; [|split]]].
  - eexists. split; [vm_compute; reflexivity|].
    rewrite !Match_result_pathRegexMatcher.
    repeat split; vm_compute; reflexivity.
  - eexists. split; [vm_compute; reflexivity|].
    rewrite !Match_result_pathWithVarsMatcher.
    repeat split; vm_compute; reflexivity.
  - eexists. repeat split; vm_compute; reflexivity.
  - eexists. split; [vm_compute; reflexivity|].
    intros scheme header. rewrite !Match_result_pathRegexMatcher.
    split; vm_compute; reflexivity.
  - eexists. split; [vm_compute; reflexivity|].
    intros scheme header. rewrite !Match_result_pathWithVarsMatcher.
    split; vm_compute; reflexivity.
Qed.

(** ** C7: the regular-expression path matcher *)



(** ** C5: the scheme matcher *)

Lemma newSchemeMatcher_elem unicode_ToLower schemes x :
  x ∈ schemeMatcher_set (newSchemeMatcher unicode_ToLower schemes)
  ↔ ∃ v, v ∈ schemes ∧ x = strings_ToLower unicode_ToLower v.
Proof.
  unfold newSchemeMatcher. cbn [schemeMatcher_set].
  assert (H : ∀ l (acc : gset gostring),
    x ∈ foldl (λ m v, {[ strings_ToLower unicode_ToLower v ]} ∪ m) acc l
    ↔ x ∈ acc ∨ ∃ v, v ∈ l ∧ x = strings_ToLower unicode_ToLower v).
  { induction l as [|v l IH]; intros acc; cbn [foldl].
    - split; [auto|]. intros [?|(v & Hv & _)]; [done|]. by apply elem_of_nil in Hv.
    - rewrite IH, elem_of_union, elem_of_singleton. split.
      + intros [[->|?]|(v' & Hv' & ->)].
        * right. exists v. split; [apply elem_of_cons; auto|done].
        * by left.
        * right. exists v'. split; [apply elem_of_cons; auto|done].
      + intros [?|(v' & Hv' & ->)]; [auto|].
        apply elem_of_cons in Hv' as [->|Hv']; [auto|].
        right. by exists v'. }
  rewrite H. split; [|auto]. intros [Hx|?]; [|done]. by apply not_elem_of_empty in Hx.
Qed.

(** C5.  [newSchemeMatcher] stores the lower-cased form of every scheme it
    is given and nothing else; [Match] tests whether the scheme of the
    request, as it is, belongs to that set.  Built from "HTTP", the matcher
    accepts the scheme "http" and rejects the scheme "HTTPS". *)
Theorem schemeMatcher_lowercases_at_construction :
  ∀ unicode_ToLower : gostring → gostring,
    (∀ schemes x,
       x ∈ schemeMatcher_set (newSchemeMatcher unicode_ToLower schemes)
       ↔ ∃ v, v ∈ schemes ∧ x = strings_ToLower unicode_ToLower v)
    ∧ (∀ (m : schemeMatcher) r,
         Match_result m r
         = (λ u, bool_decide (Scheme u ∈ schemeMatcher_set m)) <$> r_URL r)
    ∧ strings_ToLower unicode_ToLower (str "HTTP") = str "http"
    ∧ (∀ path header,
         Match_result (newSchemeMatcher unicode_ToLower [str "HTTP"])
           (request_for (str "http") path header) = Some true
         ∧ Match_result (newSchemeMatcher unicode_ToLower [str "HTTP"])
             (request_for (str "HTTPS") path header) = Some false).
Proof.
  intros unicode_ToLower.
  split; [apply newSchemeMatcher_elem|].
  split; [apply Match_result_schemeMatcher|].
  split; [reflexivity|].
  intros path header. rewrite !Match_result_schemeMatcher.
  cbn [request_for r_URL fmap option_fmap option_map Scheme].
  split; apply (f_equal Some).
  - apply bool_decide_eq_true. apply newSchemeMatcher_elem.
    exists (str "HTTP"). split; [apply list_elem_of_singleton|]; reflexivity.
  - apply bool_decide_eq_false. rewrite newSchemeMatcher_elem.
    intros (v & Hv & E). apply list_elem_of_singleton in Hv as ->.
    discriminate E.
Qed.

(** ** C6: ranks and the order of a collection *)

Lemma Less_lookup (ms : Matchers) i j a b :
  ms !! i = Some a → ms !! j = Some b →
  Less ms i j = Some (bool_decide (rank_of a < rank_of b)%Z).
Proof.
  intros Hi Hj. unfold Less. rewrite Hi, Hj. cbn. f_equal.
  destruct (Z.ltb_spec (rank_of a) (rank_of b)).
  - by rewrite bool_decide_eq_true_2.
  - rewrite bool_decide_eq_false_2; [done|lia].
Qed.

(** A collection of three matchers of the three ranks, once sorted, has
    them in the order any, path, scheme. *)
Lemma sorted_three_ranks (out : Matchers) :
  map rank_of out ≡ₚ [rankScheme; rankAny; rankPath] →
  sorted_by_Less out →
  map rank_of out = [rankAny; rankPath; rankScheme].
Proof.
  intros Hperm Hsorted.
  pose proof (Permutation_length Hperm) as Hlen. rewrite length_map in Hlen.
  destruct out as [|a [|b [|c [|]]]]; try discriminate Hlen. clear Hlen.
  assert (Hin : ∀ x, x ∈ [rank_of a; rank_of b; rank_of c]
                     ↔ x ∈ [rankScheme; rankAny; rankPath]).
  { intros x. by rewrite Hperm. }
  assert (Hnd : NoDup [rank_of a; rank_of b; rank_of c]).
  { rewrite Hperm. unfold rankScheme, rankAny, rankPath.
    repeat (constructor; [rewrite ?elem_of_cons, ?elem_of_nil; lia|]).
    constructor. }
  pose proof (Hsorted 0 1 ltac:(lia) ltac:(simpl; lia)) as H01.
  pose proof (Hsorted 1 2 ltac:(lia) ltac:(simpl; lia)) as H12.
  rewrite (Less_lookup _ _ _ b a) in H01 by done.
  rewrite (Less_lookup _ _ _ c b) in H12 by done.
  injection H01 as H01. injection H12 as H12.
  apply bool_decide_eq_false in H01. apply bool_decide_eq_false in H12.
  pose proof (proj1 (Hin (rank_of a)) ltac:(rewrite !elem_of_cons; auto)) as Ha.
  pose proof (proj1 (Hin (rank_of b)) ltac:(rewrite !elem_of_cons; auto)) as Hb.
  pose proof (proj1 (Hin (rank_of c)) ltac:(rewrite !elem_of_cons; auto)) as Hc.
  rewrite !elem_of_cons, elem_of_nil in Ha, Hb, Hc.
  apply NoDup_cons in Hnd as [Hab Hnd]. apply NoDup_cons in Hnd as [Hbc _].
  rewrite !not_elem_of_cons in Hab. rewrite !not_elem_of_cons in Hbc.
  unfold rankScheme, rankAny, rankPath in *. cbn [map].
  assert (rank_of a = 0 ∧ rank_of b = 1 ∧ rank_of c = 2)%Z as (-> & -> & ->) by lia.
  done.
Qed.

Lemma Less_None (ms : Matchers) i j :
  Less ms i j = None ↔ ¬ (i < Len ms ∧ j < Len ms).
Proof.
  unfold Less, Len. split.
  - intros H [Hi Hj].
    apply lookup_lt_is_Some in Hi as [a Ha]. apply lookup_lt_is_Some in Hj as [b Hb].
    by rewrite Ha, Hb in H.
  - intros H. destruct (ms !! i) as [a|] eqn:Ha; [|done].
    destruct (ms !! j) as [b|] eqn:Hb; [|done].
    apply lookup_lt_Some in Ha. apply lookup_lt_Some in Hb. tauto.
Qed.

(** *** The insertion sort of [sort.Sort] *)

Lemma place_rev_perm x rp : place_rev x rp ≡ₚ x :: rp.
Proof.
  induction rp as [|y rp IH]; cbn [place_rev]; [done|].
  destruct (rank_of x <? rank_of y)%Z; [|done].
  rewrite IH. apply Permutation_swap.
Qed.

Lemma place_rev_length x rp : length (place_rev x rp) = S (length rp).
Proof. by rewrite place_rev_perm. Qed.

Lemma place_rev_descending x rp : descending rp → descending (place_rev x rp).
Proof.
  induction rp as [|y rp IH]; cbn [place_rev descending].
  - intros _. split; [|done]. intros z Hz. by apply elem_of_nil in Hz.
  - intros [Hy Hrp]. destruct (Z.ltb_spec (rank_of x) (rank_of y)) as [Hlt|Hge].
    + cbn [descending]. split; [|by apply IH].
      intros z Hz. rewrite place_rev_perm in Hz.
      apply elem_of_cons in Hz as [->|Hz]; [lia|by apply Hy].
    + cbn [descending]. split; [|done].
      intros z Hz. apply elem_of_cons in Hz as [->|Hz]; [done|].
      specialize (Hy z Hz). lia.
Qed.

(** The inner loop started at the element after [pre] moves that element
    to its place in [pre]. *)
Lemma insert_down_spec pre : ∀ x post,
  insert_down (length pre) (pre ++ x :: post)
  = Some (reverse (place_rev x (reverse pre)) ++ post).
Proof.
  induction pre as [|y pre IH] using rev_ind; intros x post; [done|].
  rewrite length_app, Nat.add_1_r. cbn [insert_down length].
  assert (Hj : (pre ++ [y]) ++ x :: post = pre ++ y :: x :: post)
    by (by rewrite <- app_assoc).
  rewrite Hj.
  assert (Hx : (pre ++ y :: x :: post) !! S (length pre) = Some x).
  { rewrite lookup_app_r by lia. by replace (S (length pre) - length pre) with 1 by lia. }
  assert (Hy : (pre ++ y :: x :: post) !! length pre = Some y).
  { rewrite lookup_app_r by lia. by rewrite Nat.sub_diag. }
  unfold Less, Swap. rewrite Hx, Hy. cbn [mbind option_bind].
  rewrite reverse_app, reverse_singleton. cbn [app place_rev].
  destruct (rank_of x <? rank_of y)%Z.
  - assert (Hswap : <[length pre := x]> (<[S (length pre) := y]> (pre ++ y :: x :: post))
                    = pre ++ x :: y :: post).
    { rewrite !insert_app_r_alt by lia.
      replace (S (length pre) - length pre) with 1 by lia.
      by rewrite Nat.sub_diag. }
    rewrite Hswap, IH. rewrite reverse_cons, <- app_assoc. done.
  - rewrite reverse_cons, reverse_cons, reverse_involutive, <- !app_assoc. done.
Qed.

Lemma insertion_loop_spec post : ∀ pre,
  ∃ out, insertion_loop (length post) (length pre) (pre ++ post) = Some out
         ∧ out ≡ₚ pre ++ post
         ∧ (descending (reverse pre) → descending (reverse out)).
Proof.
  induction post as [|x post IH]; intros pre.
  - exists pre. rewrite app_nil_r. by split.
  - cbn [length insertion_loop]. rewrite insert_down_spec. cbn [mbind option_bind].
    destruct (IH (reverse (place_rev x (reverse pre)))) as (out & Hout & Hperm & Hdesc).
    rewrite length_reverse, place_rev_length, length_reverse in Hout.
    exists out. split; [done|]. split.
    + rewrite Hperm, reverse_Permutation, place_rev_perm, reverse_Permutation.
      cbn [app]. apply Permutation_middle.
    + intros Hpre. apply Hdesc. rewrite reverse_involutive.
      by apply place_rev_descending.
Qed.

Lemma descending_lookup l : ∀ i j a b,
  descending l → i < j → l !! i = Some a → l !! j = Some b →
  (rank_of b ≤ rank_of a)%Z.
Proof.
  induction l as [|y l IH]; intros i j a b Hd Hij Ha Hb; [done|].
  destruct Hd as [Hy Hl]. destruct j as [|j]; [lia|]. cbn in Hb.
  destruct i as [|i].
  - cbn in Ha. injection Ha as <-. apply Hy. by eapply list_elem_of_lookup_2.
  - cbn in Ha. eapply (IH i j); [done|lia|done|done].
Qed.

(** The insertion sort returns the collection rearranged so that no later
    element has a lower rank than an earlier one. *)
Lemma insertionSort_sorts (ms : Matchers) :
  ∃ out, insertionSort ms = Some out ∧ out ≡ₚ ms ∧ sorted_by_Less out.
Proof.
  unfold insertionSort, Len. destruct ms as [|x ms].
  { exists []. split; [done|]. split; [done|]. intros i j _ Hj. cbn in Hj. lia. }
  replace (length (x :: ms) - 1) with (length ms) by (cbn; lia).
  destruct (insertion_loop_spec ms [x]) as (out & Hout & Hperm & Hdesc).
  exists out. split; [exact Hout|]. split; [exact Hperm|].
  assert (Hd : descending (reverse out)).
  { apply Hdesc. cbn. split; [|done]. intros z Hz. by apply elem_of_nil in Hz. }
  intros i j Hij Hj. unfold Len in Hj.
  destruct (lookup_lt_is_Some_2 out j Hj) as [b Hb].
  destruct (lookup_lt_is_Some_2 out i ltac:(lia)) as [a Ha].
  rewrite (Less_lookup _ _ _ _ _ Hb Ha). f_equal. apply bool_decide_eq_false.
  assert (rank_of a ≤ rank_of b)%Z; [|lia].
  apply (descending_lookup (reverse out) (length out - S j) (length out - S i));
    [done|lia| |].
  - rewrite reverse_lookup by lia. rewrite <- Hb. f_equal. lia.
  - rewrite reverse_lookup by lia. rewrite <- Ha. f_equal. lia.
Qed.

(** C6.  The three ranks are ordered any < path < scheme; [Rank] is a
    constant of each variant; [Less(i, j)] is true exactly when the rank
    of element [i] is below the rank of element [j] (and panics exactly
    when an index is out of range).  Every arrangement of a collection in
    which no later element is less than an earlier one has the ranks
    scheme, any and path in the order any, path, scheme, and the insertion
    sort that [sort.Sort] runs on such a collection returns such an
    arrangement. *)
Theorem ranks_order_the_collection :
  ((rankAny < rankPath)%Z ∧ (rankPath < rankScheme)%Z)
  ∧ ((∀ m : headerMatcher, Rank m = rankAny)
     ∧ (∀ m : headerRegexMatcher, Rank m = rankAny)
     ∧ (∀ m : MatcherFunc, Rank m = rankAny)
     ∧ (∀ m : pathMatcher, Rank m = rankPath)
     ∧ (∀ m : pathRegexMatcher, Rank m = rankPath)
     ∧ (∀ m : pathWithVarsMatcher, Rank m = rankPath)
     ∧ (∀ m : schemeMatcher, Rank m = rankScheme))
  ∧ (∀ (ms : Matchers) i j a b,
       ms !! i = Some a → ms !! j = Some b →
       Less ms i j = Some (bool_decide (rank_of a < rank_of b)%Z))
  ∧ (∀ (ms : Matchers) i j, Less ms i j = None ↔ ¬ (i < Len ms ∧ j < Len ms))
  ∧ (∀ ms out : Matchers,
       map rank_of ms ≡ₚ [rankScheme; rankAny; rankPath] →
       out ≡ₚ ms →
       sorted_by_Less out →
       map rank_of out = [rankAny; rankPath; rankScheme])
  ∧ (∀ ms : Matchers,
       ∃ out, insertionSort ms = Some out ∧ out ≡ₚ ms ∧ sorted_by_Less out)
  ∧ (∀ ms : Matchers,
       map rank_of ms ≡ₚ [rankScheme; rankAny; rankPath] →
       ∃ out, insertionSort ms = Some out
              ∧ out ≡ₚ ms
              ∧ map rank_of out = [rankAny; rankPath; rankScheme])
  ∧ (∀ (s : schemeMatcher) (h : headerMatcher) (p : pathMatcher),
       insertionSort [matcherValue _ _ s; matcherValue _ _ h; matcherValue _ _ p]
       = Some [matcherValue _ _ h; matcherValue _ _ p; matcherValue _ _ s]).
Proof.
  split; [by unfold rankAny, rankPath, rankScheme|].
  split; [by repeat split|].
  split; [apply Less_lookup|].
  split; [apply Less_None|].
  assert (Hchar : ∀ ms out : Matchers,
    map rank_of ms ≡ₚ [rankScheme; rankAny; rankPath] →
    out ≡ₚ ms → sorted_by_Less out →
    map rank_of out = [rankAny; rankPath; rankScheme]).
  { intros ms out Hranks Hperm Hsorted.
    apply sorted_three_ranks; [|done]. by rewrite Hperm. }
  split; [exact Hchar|].
  split; [apply insertionSort_sorts|].
  split; [|reflexivity].
  intros ms Hranks.
  destruct (insertionSort_sorts ms) as (out & Hout & Hperm & Hsorted).
  exists out. split; [done|]. split; [done|]. by apply (Hchar ms).
Qed.

Lemma ranks_order_the_collection_witness :
  map rank_of
    [matcherValue _ _ (mkHeaderMatcher ∅);
     matcherValue _ _ (mkPathMatcher (str "/"));
     matcherValue _ _ (mkSchemeMatcher ∅)]
  = [rankAny; rankPath; rankScheme].
Proof.
  apply (proj1 (proj2 (proj2 (proj2 (proj2 ranks_order_the_collection))))
           [matcherValue _ _ (mkSchemeMatcher ∅);
            matcherValue _ _ (mkHeaderMatcher ∅);
            matcherValue _ _ (mkPathMatcher (str "/"))]).
  - reflexivity.
  - symmetry. apply (Permutation_cons_append [_; _]).
  - intros i j Hij Hj. simpl in Hj.
    destruct j as [|[|[|j]]]; [lia| | |lia].
    + destruct i as [|i]; [reflexivity|lia].
    + destruct i as [|[|i]]; [reflexivity|reflexivity|lia].
Defined.

(** ** C8: what [Match] does to the matcher and to the request *)

(** C8 (as amended).  [Match] of the two header variants, of the scheme
    variant and of the three path variants writes neither to the matcher
    nor to the request: when it returns, it returns a boolean and both are
    as they were.  It returns on every request it can read and panics on
    the others: all six panic on a nil request pointer, and the scheme
    variant and the three path variants panic on a request whose URL is
    nil.  The boolean of the header variants is the answer of [matchMap],
    that of the other four is stated.  [Match] of a custom function leaves
    the matcher as it was and otherwise does what the function does: it
    returns what the function returns, leaves the request as the function
    leaves it, and panics when the function does. *)
Theorem builtin_matchers_only_read :
  ((∀ (m : headerMatcher) r,
      Match (mkWorld m (Some r))
      = Some (matchMap (headerMatcher_map m) (r_Header r) true, mkWorld m (Some r)))
   ∧ (∀ m : headerMatcher, Match (mkWorld m None) = None))
  ∧ ((∀ (m : headerRegexMatcher) r,
        Match (mkWorld m (Some r))
        = Some (matchMap (headerRegexMatcher_map m) (r_Header r) true,
                mkWorld m (Some r)))
     ∧ (∀ m : headerRegexMatcher, Match (mkWorld m None) = None))
  ∧ ((∀ (m : schemeMatcher) r,
        Match (mkWorld m (Some r))
        = match r_URL r with
          | Some u => Some (bool_decide (Scheme u ∈ schemeMatcher_set m),
                            mkWorld m (Some r))
          | None => None
          end)
     ∧ (∀ m : schemeMatcher, Match (mkWorld m None) = None))
  ∧ ((∀ (m : pathMatcher) r,
        Match (mkWorld m (Some r))
        = match r_URL r with
          | Some u => Some (bool_decide (pathMatcher_string m = Path u),
                            mkWorld m (Some r))
          | None => None
          end)
     ∧ (∀ m : pathMatcher, Match (mkWorld m None) = None))
  ∧ ((∀ (m : pathWithVarsMatcher) r,
        Match (mkWorld m (Some r))
        = match r_URL r with
          | Some u => Some (MatchString (pathWithVarsMatcher_regex m) (Path u),
                            mkWorld m (Some r))
          | None => None
          end)
     ∧ (∀ m : pathWithVarsMatcher, Match (mkWorld m None) = None))
  ∧ ((∀ (m : pathRegexMatcher) r,
        Match (mkWorld m (Some r))
        = match r_URL r with
          | Some u => Some (MatchString (pathRegexMatcher_regex m) (Path u),
                            mkWorld m (Some r))
          | None => None
          end)
     ∧ (∀ m : pathRegexMatcher, Match (mkWorld m None) = None))
  ∧ ((∀ (m : MatcherFunc) r,
        Match (mkWorld m (Some r))
        = (λ br : bool * Request, (br.1, mkWorld m (Some br.2)))
          <$> MatcherFunc_call m r)
     ∧ (∀ m : MatcherFunc,
          Match (mkWorld m None)
          = (λ b : bool, (b, mkWorld m None)) <$> MatcherFunc_call_nil m)).
Proof.
  repeat split; try (intros m; reflexivity).
  - intros m r. cbn. unfold act_bind. cbn. by destruct (r_URL r).
  - intros m r. cbn. unfold act_bind. cbn.
    destruct (r_URL r) as [u|]; [|done]. cbn. by rewrite strings_Compare_0.
  - intros m r. cbn. unfold act_bind. cbn. by destruct (r_URL r).
  - intros m r. cbn. unfold act_bind. cbn. by destruct (r_URL r).
  - intros m r. cbn. unfold act_bind, call_func. cbn.
    by destruct (MatcherFunc_call m r) as [[b r']|].
Qed.

(** C8 as stated fails: a custom function receives the pointer to the
    request and may write through it or panic; every built-in variant
    dereferences the pointer to the request, which panics when it is nil;
    and the scheme and path variants dereference [r.URL], which panics
    when it is nil. *)
Lemma custom_function_may_write_or_panic :
  Match (mkWorld rewriting_func (Some (request_for (str "http") (str "/admin") ∅)))
  = Some (true, mkWorld rewriting_func (Some (request_for (str "http") (str "/") ∅)))
  ∧ request_for (str "http") (str "/admin") ∅ ≠ request_for (str "http") (str "/") ∅
  ∧ Match (mkWorld panicking_func (Some (request_for (str "http") (str "/admin") ∅)))
    = None
  ∧ Match (mkWorld (mkHeaderMatcher ∅) None) = None
  ∧ Match (mkWorld (mkPathMatcher (str "/")) (Some (mkRequest None ∅))) = None
  ∧ Match (mkWorld (mkSchemeMatcher ∅) (Some (mkRequest None ∅))) = None.
Proof. repeat split; try reflexivity. discriminate. Qed.

(** * Further properties *)

(** ** The scan ends on every template *)

Lemma keywords_lengths kw frag :
  (kw, frag) ∈ keywords →
  length kw = 7 ∧ count_colons kw = 1 ∧ 11 ≤ length frag ≤ 14 ∧ count_colons frag = 0.
Proof.
  unfold keywords. rewrite !elem_of_cons, elem_of_nil.
  intros [[= -> ->]|[[= -> ->]|[]]]; vm_compute; repeat split; lia.
Qed.

Lemma scan_loop_growth t fuel i path vars out vars' :
  firstIndex vars ≤ i →
  grown_by_substitutions t path →
  scan_loop fuel i path vars = Some (out, vars') →
  grown_by_substitutions t out.
Proof.
  apply (scan_loop_preserves (grown_by_substitutions t)).
  clear. intros i path kw frag f Hk _ _ _ _ _ Hp (Hc & Hlo & Hhi).
  apply keywords_lengths in Hk as (Hkl & Hkc & Hfl & Hfc).
  remember (take f path) as a eqn:Ea. remember (drop (token_end i path) path) as b eqn:Eb.
  clear Ea Eb. subst path. unfold grown_by_substitutions in *.
  rewrite !count_colons_app, !length_app in *. lia.
Qed.

(** X1.  The loop of [newPathWithVarsMatcher] ends on every template and
    never slices out of range, although the template grows while it is
    scanned.  The template it leaves has no more colons than the given one,
    and for every colon that is gone it is longer by four bytes at least
    and by seven at most. *)
Theorem scan_ends_and_grows_by_substitutions template :
  ∃ out, rewrite_template template = Some out
         ∧ count_colons out ≤ count_colons template
         ∧ length template + 4 * (count_colons template - count_colons out) ≤ length out
         ∧ length out ≤ length template + 7 * (count_colons template - count_colons out).
Proof.
  destruct (rewrite_template_total template) as [out Hout].
  exists out. split; [done|].
  unfold rewrite_template in Hout.
  destruct (scan_loop (scan_fuel template) 0 template variable_zero)
    as [[out' v]|] eqn:Hscan; [|done].
  injection Hout as <-.
  eapply (scan_loop_growth template) in Hscan; [exact Hscan|simpl; lia|].
  unfold grown_by_substitutions. lia.
Qed.



(** ** The scan, chunk by chunk *)

Lemma split_colons_spec t :
  t = (split_colons t).1 ++ join_colons (split_colons t).2
  ∧ Forall (λ c, c ≠ ":"%char) (split_colons t).1
  ∧ Forall (Forall (λ c, c ≠ ":"%char)) (split_colons t).2.
Proof.
  induction t as [|c t (IH1 & IH2 & IH3)]; [by repeat split|].
  cbn [split_colons]. case_bool_decide as Hc; cbn [fst snd].
  - subst c. split; [|split].
    + unfold join_colons. cbn. f_equal. exact IH1.
    + constructor.
    + by constructor.
  - split; [|split].
    + cbn. f_equal. exact IH1.
    + by constructor.
    + done.
Qed.

Lemma upto_slash_spec t :
  t = (upto_slash t).1 ++ (upto_slash t).2
  ∧ ("/"%char ∉ (upto_slash t).1)
  ∧ ((upto_slash t).2 = [] ∨ ∃ b, (upto_slash t).2 = "/"%char :: b).
Proof.
  induction t as [|c t (IH1 & IH2 & IH3)].
  { split; [done|]. split; [apply not_elem_of_nil|by left]. }
  cbn [upto_slash]. case_bool_decide as Hc; cbn [fst snd].
  - subst c. split; [done|]. split; [apply not_elem_of_nil|]. right. by eexists.
  - split; [cbn; by f_equal|]. split; [|done].
    apply not_elem_of_cons. split; [congruence|done].
Qed.

Lemma scan_loop_end fuel path vars out v :
  scan_loop fuel (length path) path vars = Some (out, v) → out = path.
Proof. destruct fuel; simpl; rewrite Nat.ltb_irrefl; by intros [= <- <-]. Qed.

Lemma scan_step fuel i path vars out v ch :
  path !! i = Some ch →
  scan_loop fuel i path vars = Some (out, v) →
  ∃ fuel' path' vars',
    loop_body i path vars = Some (path', vars')
    ∧ scan_loop fuel' (S i) path' vars' = Some (out, v).
Proof.
  intros Hch. apply lookup_lt_Some in Hch. apply Nat.ltb_lt in Hch.
  destruct fuel as [|fuel]; simpl; rewrite Hch; [done|].
  destruct (loop_body i path vars) as [[path' vars']|]; [|done].
  cbn. intros H. by exists fuel, path', vars'.
Qed.

(** An iteration on a byte that is no colon and ends no name. *)
Lemma loop_body_inert i path vars ch :
  path !! i = Some ch → ch ≠ ":"%char → firstIndex vars ≤ i →
  (firstIndex vars = 0
   ∨ (∃ s, firstIndex vars ≤ s < i ∧ path !! s = Some "/"%char)
   ∨ (ch ≠ "/"%char ∧ i ≠ length path - 1)) →
  ∃ vars', loop_body i path vars = Some (path, vars')
           ∧ firstIndex vars' = firstIndex vars.
Proof.
  intros Hch Hnc Hf Hcase.
  rewrite (loop_body_unfold i path vars ch Hch Hf).
  rewrite bool_decide_eq_false_2 by done.
  destruct (token_ends i path vars ch) eqn:Hte; [|by eexists].
  unfold token_ends in Hte. apply andb_true_iff in Hte as [Hnz Hend].
  apply negb_true_iff, Nat.eqb_neq in Hnz.
  destruct Hcase as [H0|[(s & Hs & Hslash)|[Hns Hnl]]].
  - done.
  - rewrite (substitution_stale i path (firstIndex vars) s); [by eexists| |done|done].
    by eapply lookup_lt_Some.
  - apply orb_true_iff in Hend as [H|H].
    + by apply bool_decide_eq_true in H.
    + by apply Nat.eqb_eq in H.
Qed.

Lemma scan_inert path f : ∀ n fuel i vars out v,
  i + n ≤ length path → firstIndex vars = f → f ≤ i →
  (∀ k, i ≤ k < i + n →
     ∃ ch, path !! k = Some ch ∧ ch ≠ ":"%char
           ∧ (f = 0
              ∨ (∃ s, f ≤ s < k ∧ path !! s = Some "/"%char)
              ∨ (ch ≠ "/"%char ∧ k ≠ length path - 1))) →
  scan_loop fuel i path vars = Some (out, v) →
  ∃ fuel' vars', firstIndex vars' = f
                 ∧ scan_loop fuel' (i + n) path vars' = Some (out, v).
Proof.
  induction n as [|n IH]; intros fuel i vars out v Hlen Hf Hfi Hin Hscan.
  { exists fuel, vars. by rewrite Nat.add_0_r. }
  destruct (Hin i ltac:(lia)) as (ch & Hch & Hnc & Hcase).
  destruct (scan_step _ _ _ _ _ _ _ Hch Hscan) as (fuel' & path' & vars' & Hb & Hscan').
  destruct (loop_body_inert i path vars ch Hch Hnc) as (vars'' & Hb' & Hf'');
    [lia|by rewrite Hf|].
  rewrite Hb' in Hb. injection Hb as <- <-.
  replace (i + S n) with (S i + n) by lia.
  apply (IH fuel' (S i) vars''); [lia|congruence|lia| |done].
  intros k Hk. apply Hin. lia.
Qed.

(** The scan passes over a text without a colon that ends no name. *)
Lemma scan_skip_text path pre txt post f i fuel vars out v :
  path = pre ++ txt ++ post →
  Forall (λ c, c ≠ ":"%char) txt →
  firstIndex vars = f → f ≤ i →
  length pre ≤ i ≤ length pre + length txt →
  (f = 0
   ∨ (∃ s, f ≤ s < i ∧ path !! s = Some "/"%char)
   ∨ (("/"%char ∉ txt) ∧ post ≠ [])) →
  scan_loop fuel i path vars = Some (out, v) →
  ∃ fuel' vars',
    firstIndex vars' = f
    ∧ scan_loop fuel' (length pre + length txt) path vars' = Some (out, v).
Proof.
  intros -> Hcf Hf Hfi Hi Hcase Hscan.
  replace (length pre + length txt) with (i + (length pre + length txt - i)) by lia.
  apply (scan_inert _ f _ fuel i vars); [|done|done| |done].
  { rewrite !length_app. lia. }
  intros k Hk.
  destruct (lookup_lt_is_Some_2 txt (k - length pre) ltac:(lia)) as [ch Hch].
  exists ch.
  assert (Hk' : (pre ++ txt ++ post) !! k = Some ch).
  { rewrite lookup_app_r by lia. by rewrite lookup_app_l by lia. }
  split; [done|]. split.
  { rewrite Forall_forall in Hcf. apply Hcf. by eapply list_elem_of_lookup_2. }
  destruct Hcase as [H0|[(s & Hs & Hslash)|[Hns Hpost]]].
  - by left.
  - right. left. exists s. split; [lia|done].
  - right. right. split.
    + intros ->. apply Hns. by eapply list_elem_of_lookup_2.
    + rewrite !length_app. destruct post; [done|]. cbn. lia.
Qed.

Lemma loop_body_colon i path vars :
  path !! i = Some ":"%char → firstIndex vars ≤ i →
  loop_body i path vars = Some (path, mkVariable i (lastIndex vars)).
Proof.
  intros Hch Hf. rewrite (loop_body_unfold i path vars _ Hch Hf).
  by rewrite bool_decide_eq_true_2.
Qed.

(** The iteration that meets the end of the name [a] that follows the
    colon at index [length done]. *)
Lemma loop_body_name_end path done a tail i vars ch :
  path = done ++ ":"%char :: a ++ tail →
  path !! i = Some ch → ch ≠ ":"%char →
  firstIndex vars = length done → done ≠ [] → length done ≤ i →
  ch = "/"%char ∨ i = length path - 1 →
  token_end i path = length done + S (length a) →
  loop_body i path vars
  = if bool_decide (":"%char :: a = numberKeyword)
    then Some (done ++ numberFragment ++ tail, variable_zero)
    else if bool_decide (":"%char :: a = stringKeyword)
    then Some (done ++ stringFragment ++ tail, variable_zero)
    else Some (path, mkVariable (length done) (length done + S (length a))).
Proof.
  intros Hpath Hch Hnc Hf Hdone Hi Hend Hte.
  rewrite (loop_body_unfold i path vars ch Hch) by lia.
  rewrite bool_decide_eq_false_2 by done.
  assert (Hends : token_ends i path vars ch = true).
  { unfold token_ends. apply andb_true_iff. split.
    - apply negb_true_iff, Nat.eqb_neq. rewrite Hf. by destruct done.
    - apply orb_true_iff. destruct Hend as [->| ->].
      + left. by apply bool_decide_eq_true.
      + right. apply Nat.eqb_refl. }
  rewrite Hends. unfold substitution. rewrite Hte, Hf.
  assert (Hseg : take (length done + S (length a) - length done) (drop (length done) path)
                 = ":"%char :: a).
  { rewrite Hpath, drop_app_length.
    replace (length done + S (length a) - length done) with (S (length a)) by lia.
    cbn [take]. f_equal. apply take_app_length. }
  assert (Hpre : take (length done) path = done).
  { by rewrite Hpath, take_app_length. }
  assert (Hpost : drop (length done + S (length a)) path = tail).
  { rewrite Hpath.
    replace (done ++ ":"%char :: a ++ tail) with ((done ++ ":"%char :: a) ++ tail)
      by (by rewrite <- app_assoc).
    replace (length done + S (length a)) with (length (done ++ ":"%char :: a))
      by (rewrite length_app; cbn; lia).
    by rewrite drop_app_length. }
  rewrite Hseg, Hpre, Hpost.
  by repeat case_bool_decide.
Qed.

Lemma keyword_no_slash a : ":"%char :: a ∈ [numberKeyword; stringKeyword] → "/"%char ∉ a.
Proof.
  rewrite !elem_of_cons, elem_of_nil.
  intros [H|[H|[]]]; injection H as ->; cbn;
    rewrite !not_elem_of_cons; repeat split; try discriminate; apply not_elem_of_nil.
Qed.

Lemma fragment_no_colon frag :
  frag ∈ [numberFragment; stringFragment] → Forall (λ c, c ≠ ":"%char) frag.
Proof.
  rewrite !elem_of_cons, elem_of_nil.
  intros [->|[->|[]]]; repeat constructor; discriminate.
Qed.

Lemma join_colons_nil ts : join_colons ts = [] → ts = [].
Proof. by destruct ts. Qed.

Lemma expand_after_nonempty done ts : done ≠ [] → expand_after done ts = expand_chunks ts.
Proof. by destruct done, ts. Qed.

Local Ltac norm_app :=
  repeat first [rewrite <- app_assoc | rewrite app_nil_r | progress cbn [app]].

Local Ltac norm_len :=
  rewrite ?length_app; cbn [length]; rewrite ?length_app; cbn [length].

Lemma scan_chunks ts : ∀ done fuel vars out v,
  Forall (Forall (λ c, c ≠ ":"%char)) ts →
  firstIndex vars ≤ length done →
  scan_loop fuel (length done) (done ++ join_colons ts) vars = Some (out, v) →
  out = done ++ expand_after done ts.
Proof.
  induction ts as [|t ts IH]; intros done fuel vars out v Hcf Hf Hscan.
  { unfold join_colons in Hscan. cbn in Hscan. rewrite app_nil_r in Hscan.
    apply scan_loop_end in Hscan. subst. destruct done; cbn; by rewrite ?app_nil_r. }
  apply Forall_cons in Hcf as [Ht Hts].
  assert (Hfinal : ∀ done' fuel' vars' path' i',
    scan_loop fuel' i' path' vars' = Some (out, v) →
    path' = done' ++ join_colons ts → i' = length done' → firstIndex vars' ≤ i' →
    done' ≠ [] →
    out = done' ++ expand_chunks ts).
  { intros done' ? ? ? ? Hs -> -> ? ?.
    rewrite <- (expand_after_nonempty done') by done. by eapply IH. }
  clear IH.
  change (join_colons (t :: ts)) with (":"%char :: t ++ join_colons ts) in Hscan.
  assert (Hlast : bool_decide (ts = []) = bool_decide (join_colons ts = [])).
  { apply bool_decide_ext. split; [by intros ->|apply join_colons_nil]. }
  remember (join_colons ts) as rest eqn:Hrest.
  assert (Hcolon : (done ++ ":"%char :: t ++ rest) !! length done = Some ":"%char)
    by (by apply list_lookup_middle).
  destruct (scan_step _ _ _ _ _ _ _ Hcolon Hscan)
    as (fuel1 & path1 & vars1 & Hb & Hscan1).
  rewrite loop_body_colon in Hb by done. injection Hb as <- <-.
  clear Hscan Hcolon.
  destruct (decide (done = [])) as [->|Hdone].
  { (* a colon at index 0 *)
    cbn [app length] in *.
    eapply (scan_skip_text _ [":"%char] t rest 0) in Hscan1
      as (fuel2 & vars2 & Hf2 & Hscan2);
      [|done|done|done|lia|cbn; lia|by left].
    eapply (Hfinal (":"%char :: t)) in Hscan2; [exact Hscan2|done|done|cbn; lia|done]. }
  rewrite expand_after_nonempty by done. cbn [expand_chunks].
  unfold expand_chunk. cbv zeta. rewrite Hlast.
  destruct (upto_slash_spec t) as (Ht_eq & Hns & Hb).
  remember (upto_slash t).1 as a eqn:Ea. remember (upto_slash t).2 as b eqn:Eb.
  clear Ea Eb. subst t. apply Forall_app in Ht as [Ha Hcb].
  set (vars1 := mkVariable (length done) (lastIndex vars)) in *.
  assert (Hf1 : firstIndex vars1 = length done) by done.
  clearbody vars1. clear Hf vars Hlast.
  destruct Hb as [->|[b' ->]].
  - (* no slash before the next colon *)
    rewrite app_nil_r in *. cbn [name_ends].
    destruct rest as [|r0 rest'].
    + (* the name runs to the end of the template *)
      rewrite bool_decide_eq_true_2 by done. cbn [andb].
      assert (ts = []) as -> by (by apply join_colons_nil).
      cbn [expand_chunks]. clear Hfinal Hrest.
      assert (Ha' : a = [] ∨ ∃ a0 z, a = a0 ++ [z])
        by (destruct a using rev_ind; eauto).
      destruct Ha' as [->|(a0 & z & ->)].
      { rewrite !bool_decide_eq_false_2 by discriminate.
        replace (S (length done)) with (length (done ++ [":"%char] ++ []))
          in Hscan1 by (norm_len; lia).
        apply scan_loop_end in Hscan1. subst out. by norm_app. }
      apply Forall_app in Ha as [Ha0 Hz]. apply (proj1 (Forall_singleton _ _)) in Hz.
      eapply (scan_skip_text _ (done ++ [":"%char]) a0 [z] (length done)) in Hscan1
        as (fuel2 & vars2 & Hf2 & Hscan2);
        [|by norm_app|done|done|lia|norm_len; lia|].
      2:{ right. right. split; [|done]. intros Hin. apply Hns, elem_of_app. by left. }
      set (path := done ++ ":"%char :: (a0 ++ [z]) ++ []) in *.
      set (s := length (done ++ [":"%char]) + length a0) in *.
      assert (Hs : s = length path - 1) by (unfold s, path; norm_len; lia).
      assert (Hz' : path !! s = Some z).
      { unfold path, s.
        replace (done ++ ":"%char :: (a0 ++ [z]) ++ [])
          with ((done ++ [":"%char] ++ a0) ++ z :: []) by (by norm_app).
        apply list_lookup_middle. norm_len. lia. }
      destruct (scan_step _ _ _ _ _ _ _ Hz' Hscan2)
        as (fuel3 & path3 & vars3 & Hb3 & Hscan3).
      rewrite (loop_body_name_end path done (a0 ++ [z]) [] s vars2 z) in Hb3;
        [|done|done|done|done|done|unfold s; norm_len; lia|by right|].
      2:{ unfold token_end. rewrite Hs, Nat.eqb_refl. unfold path. norm_len. lia. }
      clear Hscan2.
      case_bool_decide as Hnum.
      { injection Hb3 as <- <-. cbn [andb].
        eapply (scan_skip_text _ done numberFragment [] 0) in Hscan3
          as (fuel4 & vars4 & Hf4 & Hscan4);
          [|done|apply fragment_no_colon, elem_of_cons; by left|done|lia| |by left].
        2:{ apply (f_equal length) in Hnum. change (length numberKeyword) with 7 in Hnum.
            change (length numberFragment) with 11.
            revert Hnum Hs. unfold path. norm_len. lia. }
        replace (length done + length numberFragment)
          with (length (done ++ numberFragment ++ [])) in Hscan4 by (norm_len; lia).
        apply scan_loop_end in Hscan4. subst out. by norm_app. }
      case_bool_decide as Hstr.
      { injection Hb3 as <- <-. cbn [andb].
        eapply (scan_skip_text _ done stringFragment [] 0) in Hscan3
          as (fuel4 & vars4 & Hf4 & Hscan4);
          [|done|apply fragment_no_colon, elem_of_cons; right; apply elem_of_cons; by left
           |done|lia| |by left].
        2:{ apply (f_equal length) in Hstr. change (length stringKeyword) with 7 in Hstr.
            change (length stringFragment) with 14.
            revert Hstr Hs. unfold path. norm_len. lia. }
        replace (length done + length stringFragment)
          with (length (done ++ stringFragment ++ [])) in Hscan4 by (norm_len; lia).
        apply scan_loop_end in Hscan4. subst out. by norm_app. }
      injection Hb3 as <- <-. cbn [andb].
      replace (S s) with (length path) in Hscan3 by (unfold s, path; norm_len; lia).
      apply scan_loop_end in Hscan3. subst out. unfold path. by norm_app.
    + (* the next colon comes first *)
      rewrite bool_decide_eq_false_2 by done. cbn [andb].
      eapply (scan_skip_text _ (done ++ [":"%char]) a (r0 :: rest') (length done))
        in Hscan1 as (fuel2 & vars2 & Hf2 & Hscan2);
        [|by norm_app|done|done|lia|norm_len; lia|].
      2:{ right. right. by split. }
      eapply (Hfinal (done ++ ":"%char :: a)) in Hscan2;
        [|by norm_app|norm_len; lia|norm_len; lia|by destruct done].
      subst out. by norm_app.
  - (* a slash ends the name *)
    apply Forall_cons in Hcb as [_ Hcb'].
    eapply (scan_skip_text _ (done ++ [":"%char]) a ("/"%char :: b' ++ rest)
              (length done)) in Hscan1 as (fuel2 & vars2 & Hf2 & Hscan2);
      [|by norm_app|done|done|lia|norm_len; lia|].
    2:{ right. right. by split. }
    set (path := done ++ ":"%char :: (a ++ "/"%char :: b') ++ rest) in *.
    set (s := length (done ++ [":"%char]) + length a) in *.
    assert (Hs : s = length done + S (length a)) by (unfold s; norm_len; lia).
    assert (Hslash : path !! s = Some "/"%char).
    { unfold path.
      replace (done ++ ":"%char :: (a ++ "/"%char :: b') ++ rest)
        with ((done ++ [":"%char] ++ a) ++ "/"%char :: b' ++ rest) by (by norm_app).
      apply list_lookup_middle. unfold s. norm_len. lia. }
    assert (Hlen : length path = S s + length b' + length rest)
      by (unfold path; rewrite Hs; norm_len; lia).
    destruct (scan_step _ _ _ _ _ _ _ Hslash Hscan2)
      as (fuel3 & path3 & vars3 & Hb3 & Hscan3).
    clear Hscan2. cbn [name_ends].
    destruct (decide (b' = [] ∧ rest = [])) as [[-> ->]|Hmore].
    + (* the slash is the last byte: it is taken into the name *)
      rewrite !bool_decide_eq_true_2 by done. cbn [andb negb].
      assert (ts = []) as -> by (by apply join_colons_nil).
      cbn [expand_chunks]. clear Hfinal Hrest.
      rewrite (loop_body_name_end path done (a ++ ["/"%char]) [] s vars2 "/"%char)
        in Hb3; [|unfold path; by norm_app|done|done|done|done|lia|by left|].
      2:{ unfold token_end. cbn in Hlen.
          replace (length path - 1) with s by lia. rewrite Nat.eqb_refl.
          norm_len. lia. }
      assert (Hno : ∀ kw, kw ∈ [numberKeyword; stringKeyword] →
                          ":"%char :: a ++ ["/"%char] ≠ kw).
      { intros kw Hkw Heq. rewrite <- Heq in Hkw.
        apply keyword_no_slash in Hkw. apply Hkw, elem_of_app. right.
        apply elem_of_cons. by left. }
      rewrite !bool_decide_eq_false_2 in Hb3
        by (apply Hno; rewrite !elem_of_cons; auto).
      injection Hb3 as <- <-. cbn in Hlen.
      replace (S s) with (length path) in Hscan3 by lia.
      apply scan_loop_end in Hscan3. subst out. unfold path. by norm_app.
    + assert (Hlast : negb (bool_decide (rest = []) && bool_decide (b' = [])) = true).
      { apply negb_true_iff, andb_false_iff.
        destruct (decide (rest = [])) as [->|Hr];
          [right|left]; apply bool_decide_eq_false; tauto. }
      rewrite Hlast. cbn [andb]. clear Hlast.
      assert (Hnl : s ≠ length path - 1).
      { rewrite Hlen. destruct b', rest; cbn; try lia. tauto. }
      rewrite (loop_body_name_end path done a ("/"%char :: b' ++ rest) s vars2 "/"%char)
        in Hb3; [|unfold path; by norm_app|done|done|done|done|lia|by left|].
      2:{ unfold token_end. apply Nat.eqb_neq in Hnl. rewrite Hnl. lia. }
      case_bool_decide as Hnum.
      { injection Hb3 as <- <-.
        eapply (scan_skip_text _ done (numberFragment ++ "/"%char :: b') rest 0)
          in Hscan3 as (fuel4 & vars4 & Hf4 & Hscan4);
          [|by norm_app| |done|lia| |by left].
        2:{ apply Forall_app. split.
            - apply fragment_no_colon, elem_of_cons. by left.
            - by constructor. }
        2:{ apply (f_equal length) in Hnum. change (length numberKeyword) with 7 in Hnum.
            revert Hnum. norm_len. change (length numberFragment) with 11. lia. }
        eapply (Hfinal (done ++ numberFragment ++ "/"%char :: b')) in Hscan4;
          [|by norm_app|norm_len; lia|lia|by destruct done].
        subst out. by norm_app. }
      case_bool_decide as Hstr.
      { injection Hb3 as <- <-.
        eapply (scan_skip_text _ done (stringFragment ++ "/"%char :: b') rest 0)
          in Hscan3 as (fuel4 & vars4 & Hf4 & Hscan4);
          [|by norm_app| |done|lia| |by left].
        2:{ apply Forall_app. split.
            - apply fragment_no_colon, elem_of_cons. right. apply elem_of_cons. by left.
            - by constructor. }
        2:{ apply (f_equal length) in Hstr. change (length stringKeyword) with 7 in Hstr.
            revert Hstr. norm_len. change (length stringFragment) with 14. lia. }
        eapply (Hfinal (done ++ stringFragment ++ "/"%char :: b')) in Hscan4;
          [|by norm_app|norm_len; lia|lia|by destruct done].
        subst out. by norm_app. }
      injection Hb3 as <- <-.
      eapply (scan_skip_text _ (done ++ ":"%char :: a ++ ["/"%char]) b' rest
                (length done)) in Hscan3 as (fuel4 & vars4 & Hf4 & Hscan4);
        [|unfold path; by norm_app|done|done|lia|norm_len; lia|].
      2:{ right. left. exists s. split; [lia|done]. }
      eapply (Hfinal (done ++ ":"%char :: a ++ "/"%char :: b')) in Hscan4;
        [|unfold path; by norm_app|norm_len; lia|norm_len; lia|by destruct done].
      subst out. by norm_app.
Qed.

Lemma rewrite_template_expand template :
  rewrite_template template = Some (expand_template template).
Proof.
  destruct (rewrite_template_total template) as [out Hout].
  rewrite Hout. f_equal.
  unfold rewrite_template in Hout.
  destruct (scan_loop (scan_fuel template) 0 template variable_zero)
    as [[out' v]|] eqn:Hscan; [|done].
  injection Hout as <-.
  unfold expand_template. cbv zeta.
  destruct (split_colons_spec template) as (Heq & Hp & Hts).
  remember (split_colons template).1 as p eqn:Ep.
  remember (split_colons template).2 as ts eqn:Ets.
  clear Ep Ets.
  eapply (scan_skip_text _ [] p (join_colons ts) 0) in Hscan
    as (fuel2 & vars2 & Hf2 & Hscan2); [|done|done|done|lia|cbn; lia|by left].
  eapply scan_chunks; [done| |rewrite <- Heq; exact Hscan2]. cbn in *. lia.
Qed.


(** X2.  What the scan computes, for every template.  The template is cut
    at its colons.  The text before the first colon is kept, and so is a
    colon at index 0 with the text up to the next colon.  Any other colon,
    with the text [t] up to the next colon, is replaced together with the
    name "number" (or "string") by the fragment "([0-9]{1,})" (or
    "([a-zA-Z]{1,})") when [t] is that name followed by a slash that is not
    the last byte of the template, or is that name alone and no colon comes
    later; otherwise the colon and [t] are kept.  The constructor compiles
    that text between "^" and "$". *)
Theorem scan_expands_the_chunks :
  ∀ template,
    rewrite_template template = Some (expand_template template)
    ∧ newPathWithVarsMatcher template
      = mkPathWithVarsMatcher
        <$> regexp_MustCompile (str "^" ++ expand_template template ++ str "$").
Proof.
  intros template. split; [apply rewrite_template_expand|].
  unfold newPathWithVarsMatcher. rewrite rewrite_template_expand.
  cbn [mbind option_bind]. by destruct (regexp_MustCompile _).
Qed.

(** ** Templates without a keyword *)

Lemma is_prefix_app old b : is_prefix old (old ++ b) = true.
Proof. induction old as [|o old IH]; [by destruct b|]. simpl. by rewrite bool_decide_eq_true_2. Qed.

Lemma strings_Contains_app a old b : strings_Contains (a ++ old ++ b) old = true.
Proof.
  induction a as [|c a IH].
  - simpl. destruct (old ++ b) eqn:E; simpl; rewrite <- E, is_prefix_app; done.
  - simpl. rewrite IH. by destruct (is_prefix old (c :: a ++ old ++ b)).
Qed.

(** X4.  A template that contains neither ":number" nor ":string" is left
    as it is by the scan, whatever other colons and names it has. *)
Theorem template_without_keyword_is_kept template :
  strings_Contains template numberKeyword = false →
  strings_Contains template stringKeyword = false →
  rewrite_template template = Some template.
Proof.
  intros Hnum Hstr.
  destruct (rewrite_template_total template) as [out Hout].
  rewrite Hout. f_equal.
  unfold rewrite_template in Hout.
  destruct (scan_loop (scan_fuel template) 0 template variable_zero)
    as [[out' v]|] eqn:Hscan; [|done].
  injection Hout as <-.
  eapply (scan_loop_preserves (λ p, p = template)) in Hscan; [done| |simpl; lia|done].
  intros i path kw frag f Hk _ _ _ _ _ Hp ->.
  unfold keywords in Hk. rewrite !elem_of_cons, elem_of_nil in Hk.
  destruct Hk as [[= -> ->]|[[= -> ->]|[]]]; rewrite Hp, strings_Contains_app in *; done.
Qed.

Lemma template_without_keyword_is_kept_witness :
  rewrite_template (str "/users/:id/:num") = Some (str "/users/:id/:num").
Proof. apply template_without_keyword_is_kept; reflexivity. Defined.

(** ** Templates with placeholders *)

Lemma plain_text_no_colon p : plain_text p → Forall (λ c, c ≠ ":"%char) p.
Proof. intros H. eapply Forall_impl; [exact H|]. by intros c [_ ?]. Qed.

Lemma plain_text_plain p : plain_text p → Forall (λ c, plain_char c = true) p.
Proof. intros H. eapply Forall_impl; [exact H|]. by intros c [? _]. Qed.

Lemma split_colons_app p rest :
  Forall (λ c, c ≠ ":"%char) p →
  split_colons (p ++ rest) = (p ++ (split_colons rest).1, (split_colons rest).2).
Proof.
  induction p as [|c p IH]; intros Hp; [cbn; by destruct (split_colons rest)|].
  apply Forall_cons in Hp as [Hc Hp]. cbn [app split_colons].
  rewrite bool_decide_eq_false_2 by done. by rewrite IH.
Qed.

Lemma name_of_no_colon ph : Forall (λ c, c ≠ ":"%char) (name_of ph).
Proof. destruct ph; repeat constructor; discriminate. Qed.

Lemma keyword_of_name ph : keyword_of ph = ":"%char :: name_of ph.
Proof. by destruct ph. Qed.

Lemma split_colons_render segs :
  well_delimited segs → split_colons (render segs) = ([], chunks_of segs).
Proof.
  induction segs as [|[ph p] segs IH]; [done|].
  intros (Hp & _ & Hsegs). cbn [render chunks_of map fst snd].
  rewrite keyword_of_name. cbn [app split_colons].
  rewrite bool_decide_eq_true_2 by done.
  rewrite app_assoc, split_colons_app, (IH Hsegs).
  - cbn [fst snd]. by rewrite app_nil_r.
  - apply Forall_app. split; [apply name_of_no_colon|by apply plain_text_no_colon].
Qed.

Lemma upto_slash_app a b :
  "/"%char ∉ a → (b = [] ∨ ∃ b', b = "/"%char :: b') → upto_slash (a ++ b) = (a, b).
Proof.
  intros Ha Hb. induction a as [|c a IH].
  - destruct Hb as [->|[b' ->]]; [done|]. cbn. by rewrite bool_decide_eq_true_2.
  - apply not_elem_of_cons in Ha as [Hc Ha]. cbn [app upto_slash].
    rewrite bool_decide_eq_false_2 by congruence. by rewrite (IH Ha).
Qed.

Lemma expand_chunks_render segs :
  well_delimited segs → expand_chunks (chunks_of segs) = render_pattern segs.
Proof.
  induction segs as [|[ph p] segs IH]; [done|].
  intros (Hp & Hdelim & Hsegs). cbn [chunks_of map fst snd expand_chunks render_pattern].
  fold (chunks_of segs). rewrite (IH Hsegs), app_assoc. f_equal.
  unfold expand_chunk. cbv zeta.
  rewrite upto_slash_app; cycle 1.
  { destruct ph; cbn; rewrite !not_elem_of_cons; repeat split; try discriminate;
      apply not_elem_of_nil. }
  { destruct p as [|c p']; [by left|]. destruct Hdelim as [-> _]. right. by eexists. }
  cbn [fst snd].
  assert (Hends : name_ends (bool_decide (chunks_of segs = [])) p = true).
  { destruct p as [|c p']; cbn [name_ends].
    - subst segs. done.
    - destruct Hdelim as [_ Hmore]. apply negb_true_iff, andb_false_iff.
      destruct p' as [|c' p'']; [left|right; by apply bool_decide_eq_false].
      apply bool_decide_eq_false. intros E. apply (Hmore eq_refl).
      by destruct segs. }
  rewrite Hends. by destruct ph.
Qed.

Lemma rewrite_template_placeholders p0 segs :
  p0 ≠ [] → plain_text p0 → well_delimited segs →
  rewrite_template (p0 ++ render segs) = Some (p0 ++ render_pattern segs).
Proof.
  intros Hne Hp0 Hsegs. rewrite rewrite_template_expand. f_equal.
  unfold expand_template. cbv zeta.
  rewrite split_colons_app by (by apply plain_text_no_colon).
  rewrite split_colons_render by done. cbn [fst snd]. rewrite app_nil_r.
  rewrite expand_after_nonempty by done. by rewrite expand_chunks_render.
Qed.

(** *** The pattern of such a template *)

Lemma parse_fragment gfuel ph tail :
  parse_atom (parse_alternation (S gfuel)) (fragment_of ph ++ tail)
  = Some (Capture (concat_of [Repeat 1 None (CharClass (placeholder_class ph))]), tail).
Proof. destruct ph; reflexivity. Qed.

Section PatternOfTemplate.
Variable gfuel : nat.

Lemma parse_concat_open fuel rest :
  parse_concat (parse_alternation (S gfuel)) (S fuel) ("("%char :: rest)
  = '(a, rest0) ← parse_atom (parse_alternation (S gfuel)) ("("%char :: rest);
    '(piece, rest') ← apply_repetition a rest0;
    '(pieces, rest'') ← parse_concat (parse_alternation (S gfuel)) fuel rest';
    Some (piece :: pieces, rest'').
Proof. reflexivity. Qed.

Lemma apply_repetition_none a s :
  repetition_op s = None → apply_repetition a s = Some (a, s).
Proof. unfold apply_repetition. by intros ->. Qed.

(** A text of plain bytes before a pattern that starts with no repetition
    operator. *)
Lemma parse_concat_text p tail pieces :
  Forall (λ c, plain_char c = true) p →
  repetition_op tail = None →
  (∀ fuel, length tail ≤ fuel →
           parse_concat (parse_alternation (S gfuel)) fuel tail = Some (pieces, [])) →
  ∀ fuel, length (p ++ tail) ≤ fuel →
          parse_concat (parse_alternation (S gfuel)) fuel (p ++ tail)
          = Some (map Literal p ++ pieces, []).
Proof.
  intros Hp Htail Hrest. induction p as [|c p IH]; intros fuel Hfuel; [by apply Hrest|].
  apply Forall_cons in Hp as [Hc Hp].
  destruct fuel as [|fuel]; [cbn in Hfuel; lia|].
  cbn [app]. rewrite parse_concat_plain by done.
  rewrite apply_repetition_none; last first.
  { destruct p as [|c' p']; [done|]. apply Forall_cons in Hp as [Hc' _].
    apply repetition_op_plain. by left. }
  cbn [mbind option_bind]. rewrite IH by (cbn in Hfuel; first [done|lia]).
  done.
Qed.

Lemma fragment_of_open ph : ∃ rest, fragment_of ph = "("%char :: rest.
Proof. destruct ph; by eexists. Qed.

Lemma repetition_op_pattern segs : repetition_op (render_pattern segs) = None.
Proof.
  destruct segs as [|[ph p] segs]; [done|]. cbn [render_pattern].
  by destruct (fragment_of_open ph) as [rest ->].
Qed.

Lemma parse_concat_pattern segs : ∀ fuel,
  well_delimited segs →
  length (render_pattern segs) ≤ fuel →
  parse_concat (parse_alternation (S gfuel)) fuel (render_pattern segs)
  = Some (pieces_of segs, []).
Proof.
  induction segs as [|[ph p] segs IH]; intros fuel Hwd Hfuel.
  { apply parse_concat_nil. }
  destruct Hwd as (Hp & Hdelim & Hsegs).
  cbn [render_pattern pieces_of] in *.
  destruct fuel as [|fuel].
  { destruct (fragment_of_open ph) as [rest E]. rewrite E in Hfuel. cbn in Hfuel. lia. }
  assert (Hlen : length (p ++ render_pattern segs) ≤ fuel).
  { rewrite length_app in Hfuel.
    destruct ph; cbn [fragment_of] in Hfuel;
      [change (length numberFragment) with 11 in Hfuel
      |change (length stringFragment) with 14 in Hfuel]; lia. }
  destruct (fragment_of_open ph) as [rest E].
  assert (Hopen : (fragment_of ph ++ p ++ render_pattern segs)
                  = "("%char :: rest ++ p ++ render_pattern segs) by (by rewrite E).
  rewrite Hopen, parse_concat_open, <- Hopen.
  rewrite parse_fragment. cbn [mbind option_bind].
  rewrite apply_repetition_none; last first.
  { destruct p as [|c p'].
    - apply repetition_op_pattern.
    - destruct Hdelim as [-> _]. reflexivity. }
  cbn [mbind option_bind].
  rewrite (parse_concat_text p (render_pattern segs) (pieces_of segs));
    [done|by apply plain_text_plain|apply repetition_op_pattern| |done].
  intros fuel' Hfuel'. by apply IH.
Qed.
End PatternOfTemplate.

Lemma parse_sequence_placeholders p0 segs :
  p0 ≠ [] → plain_text p0 → well_delimited segs →
  parse_sequence (p0 ++ render_pattern segs) = Some (map Literal p0 ++ pieces_of segs)
  ∧ repetition_op (p0 ++ render_pattern segs) = None.
Proof.
  intros Hne Hp0 Hsegs. split.
  - unfold parse_sequence.
    destruct (length (p0 ++ render_pattern segs)) as [|gfuel] eqn:Hlen.
    { destruct p0; [done|]. discriminate Hlen. }
    rewrite (parse_concat_text gfuel p0 (render_pattern segs) (pieces_of segs));
      [done|by apply plain_text_plain|apply repetition_op_pattern| |lia].
    intros fuel Hfuel. by apply parse_concat_pattern.
  - destruct p0 as [|c p0]; [done|]. apply Forall_cons in Hp0 as [[Hc _] _].
    apply repetition_op_plain. by left.
Qed.

(** *** What the pattern matches *)

Lemma iterate_class cls n : ∀ pre s post,
  iterate (matches (CharClass cls)) n pre s post
  ↔ length s = n ∧ Forall (λ c, in_class cls c = true) s.
Proof.
  induction n as [|n IH]; intros pre s post.
  - split.
    + inversion 1. by split.
    + intros [Hs _]. apply nil_length_inv in Hs as ->. constructor.
  - split.
    + inversion 1 as [|? ? s1 s2 ? Hm Hit]; subst.
      destruct Hm as (c & -> & Hc). apply IH in Hit as [<- Hall].
      split; [done|]. by constructor.
    + intros [Hlen Hall]. destruct s as [|c s]; [discriminate|].
      apply Forall_cons in Hall as [Hc Hall].
      apply (iterate_S _ n pre [c] s post).
      * by exists c.
      * apply IH. split; [by injection Hlen|done].
Qed.

Lemma matchb_class_run cls pre s post :
  matchb (Capture (concat_of [Repeat 1 None (CharClass cls)])) pre s post = true
  ↔ s ≠ [] ∧ Forall (λ c, in_class cls c = true) s.
Proof.
  rewrite matchb_matches. cbn [concat_of foldr matches]. split.
  - intros (s1 & s2 & -> & (n & Hit & _) & ->).
    apply iterate_class in Hit as [Hlen Hall]. rewrite app_nil_r.
    split; [|done]. intros ->. discriminate Hlen.
  - intros [Hne Hall]. exists s, []. rewrite app_nil_r. split; [done|].
    split; [|done]. exists (length s - 1). split; [|done].
    apply iterate_class. split; [|done]. destruct s; [done|]. cbn. lia.
Qed.

Lemma matchb_pieces segs : ∀ pre s post,
  matchb (concat_of (pieces_of segs)) pre s post = true ↔ described segs s.
Proof.
  induction segs as [|[ph p] segs IH]; intros pre s post.
  { cbn. apply bool_decide_eq_true. }
  cbn [pieces_of described].
  change (concat_of (?x :: ?l)) with (Concat x (concat_of l)).
  rewrite matchb_Concat. split.
  - intros (v & s2 & -> & Hv & Hrest).
    apply matchb_class_run in Hv as [Hne Hall].
    apply matchb_concat_of_app in Hrest as (s3 & s4 & -> & Hlit & Hsegs).
    rewrite matchb_literals in Hlit. apply bool_decide_eq_true in Hlit as ->.
    apply IH in Hsegs. by exists v, s4.
  - intros (v & rest & -> & Hne & Hall & Hsegs).
    exists v, (p ++ rest). split; [done|]. split.
    + by apply matchb_class_run.
    + apply matchb_concat_of_app. exists p, rest. split; [done|]. split.
      * rewrite matchb_literals. by apply bool_decide_eq_true.
      * by apply IH.
Qed.

(** X3.  A template made of a non-empty text and placeholders ":number" and
    ":string", each followed by a text of plain bytes that is empty at the
    end of the template only and starts with a slash that is not the last
    byte of the template: the scan replaces every placeholder by its
    fragment, the constructor does not panic, and [Match] is true exactly
    for the paths that are the first text, then for every placeholder a
    non-empty run of decimal digits (of ASCII letters for ":string")
    followed by the placeholder's text. *)
Theorem placeholders_describe_the_paths p0 segs :
  p0 ≠ [] → plain_text p0 → well_delimited segs →
  rewrite_template (p0 ++ render segs) = Some (p0 ++ render_pattern segs)
  ∧ ∃ m, newPathWithVarsMatcher (p0 ++ render segs) = Some m
         ∧ expr (pathWithVarsMatcher_regex m)
           = str "^" ++ (p0 ++ render_pattern segs) ++ str "$"
         ∧ ∀ scheme path header,
             ∃ b, Match_result m (request_for scheme path header) = Some b
                  ∧ (b = true ↔ ∃ rest, path = p0 ++ rest ∧ described segs rest).
Proof.
  intros Hne Hp0 Hsegs.
  assert (Hrw := rewrite_template_placeholders p0 segs Hne Hp0 Hsegs).
  split; [exact Hrw|].
  destruct (parse_sequence_placeholders p0 segs Hne Hp0 Hsegs) as [Hseq Hrep].
  assert (Hparse := parse_of_sequence _ _ (parse_sequence_anchored _ _ Hseq Hrep)).
  unfold newPathWithVarsMatcher, regexp_MustCompile.
  rewrite Hrw. cbn [mbind option_bind]. rewrite Hparse. cbn [mbind option_bind].
  eexists. split; [done|]. split; [done|].
  intros scheme path header. rewrite Match_result_pathWithVarsMatcher.
  cbn [request_for r_URL fmap option_fmap option_map Path pathWithVarsMatcher_regex].
  eexists. split; [done|].
  erewrite MatchString_anchored by done.
  rewrite matchb_concat_of_app. split.
  - intros (s1 & s2 & -> & Hlit & Hrest).
    rewrite matchb_literals in Hlit. apply bool_decide_eq_true in Hlit as ->.
    exists s2. split; [done|]. by apply matchb_pieces in Hrest.
  - intros (rest & -> & Hrest). exists p0, rest. split; [done|]. split.
    + rewrite matchb_literals. by apply bool_decide_eq_true.
    + by apply matchb_pieces.
Qed.

Lemma placeholders_describe_the_paths_witness :
  rewrite_template (str "/users/:number/posts/:string")
  = Some (str "/users/([0-9]{1,})/posts/([a-zA-Z]{1,})")
  ∧ ∃ m, newPathWithVarsMatcher (str "/users/:number/posts/:string") = Some m
         ∧ ∀ scheme path header,
             ∃ b, Match_result m (request_for scheme path header) = Some b
                  ∧ (b = true
                     ↔ ∃ rest, path = str "/users/" ++ rest
                               ∧ described [(phNumber, str "/posts/"); (phString, [])] rest).
Proof.
  destruct (placeholders_describe_the_paths (str "/users/")
              [(phNumber, str "/posts/"); (phString, [])])
    as (Hrw & m & Hm & _ & Hmatch).
  - discriminate.
  - repeat constructor; discriminate.
  - cbn. repeat split; try done; repeat constructor; discriminate.
  - split; [exact Hrw|]. exists m. split; [exact Hm|exact Hmatch].
Defined.

(** ** Patterns of plain bytes *)

(** X5.  A pattern made of bytes that are no pattern operator, "#"
    among them: [newPathRegexMatcher] does not panic, and [Match] is true
    exactly when the path of the request is the pattern without its "#"
    bytes. *)
Theorem plain_regex_pattern_matches_literally path :
  Forall (λ c, plain_char c = true) path →
  ∃ m, newPathRegexMatcher path = Some m
       ∧ ∀ r, Match_result m r
              = (λ u, bool_decide (Path u = filter (λ c, c ≠ "#"%char) path))
                <$> r_URL r.
Proof.
  intros Hplain. unfold newPathRegexMatcher, strings_Replace.
  cbn [str list_ascii_of_string mbind option_bind].
  rewrite replace_scan_hash by lia.
  unfold regexp_MustCompile.
  rewrite parse_anchored_literals; last first.
  { apply Forall_forall. intros c Hc. apply list_elem_of_filter in Hc as [_ Hc].
    revert c Hc. by apply Forall_forall. }
  cbn [mbind option_bind]. eexists. split; [done|].
  intros r. rewrite Match_result_pathRegexMatcher.
  destruct (r_URL r) as [u|]; [|done]. cbn [fmap option_fmap option_map].
  f_equal. erewrite MatchString_anchored by done.
  rewrite matchb_literals. done.
Qed.

Lemma plain_regex_pattern_matches_literally_witness :
  ∃ m, newPathRegexMatcher (str "/a#b") = Some m
       ∧ ∀ r, Match_result m r
              = (λ u, bool_decide (Path u = filter (λ c, c ≠ "#"%char) (str "/a#b")))
                <$> r_URL r.
Proof.
  apply plain_regex_pattern_matches_literally.
  repeat constructor.
Defined.

Lemma split_colons_without_colon (t : gostring) :
  ":"%char ∉ t → split_colons t = (t, []).
Proof.
  induction t as [|c t IH]; [done|]. intros Hc.
  apply not_elem_of_cons in Hc as [Hc Ht]. cbn [split_colons].
  rewrite bool_decide_eq_false_2 by congruence. by rewrite (IH Ht).
Qed.

Lemma filter_without (c : ascii) (t : gostring) : c ∉ t → filter (λ x, x ≠ c) t = t.
Proof.
  induction t as [|x t IH]; [done|]. intros Hc.
  apply not_elem_of_cons in Hc as [Hx Ht].
  rewrite filter_cons_True by congruence. by rewrite (IH Ht).
Qed.

(** X6.  On a pattern without a colon and without a "#" the two
    constructors compile the same text: they build the same expression, or
    both panic, and the two matchers answer alike on every request. *)
Theorem constructors_agree_without_colon_and_hash (path : gostring) :
  ":"%char ∉ path → "#"%char ∉ path →
  pathWithVarsMatcher_regex <$> newPathWithVarsMatcher path
  = pathRegexMatcher_regex <$> newPathRegexMatcher path
  ∧ ∀ r, (newPathWithVarsMatcher path ≫= λ m, Match_result m r)
         = (newPathRegexMatcher path ≫= λ m, Match_result m r).
Proof.
  intros Hcolon Hhash.
  assert (Hv : newPathWithVarsMatcher path
               = mkPathWithVarsMatcher
                 <$> regexp_MustCompile (str "^" ++ path ++ str "$")).
  { unfold newPathWithVarsMatcher. rewrite rewrite_template_expand.
    unfold expand_template. cbv zeta. rewrite split_colons_without_colon by done.
    cbn [fst snd mbind option_bind].
    replace (expand_after path []) with (@nil ascii) by (by destruct path).
    rewrite app_nil_r. by destruct (regexp_MustCompile _). }
  assert (Hr : newPathRegexMatcher path
               = mkPathRegexMatcher
                 <$> regexp_MustCompile (str "^" ++ path ++ str "$")).
  { unfold newPathRegexMatcher, strings_Replace.
    cbn [str list_ascii_of_string mbind option_bind].
    rewrite replace_scan_hash by lia. rewrite filter_without by done.
    by destruct (regexp_MustCompile _). }
  rewrite Hv, Hr. destruct (regexp_MustCompile _) as [re|]; [|done].
  split; [done|]. intros r. cbn [fmap option_fmap option_map mbind option_bind].
  by rewrite Match_result_pathWithVarsMatcher, Match_result_pathRegexMatcher.
Qed.

Lemma constructors_agree_without_colon_and_hash_witness :
  pathWithVarsMatcher_regex <$> newPathWithVarsMatcher (str "/items/[0-9]+")
  = pathRegexMatcher_regex <$> newPathRegexMatcher (str "/items/[0-9]+").
Proof.
  apply (constructors_agree_without_colon_and_hash (str "/items/[0-9]+"));
    cbn; rewrite !not_elem_of_cons; repeat split; try discriminate;
    apply not_elem_of_nil.
Defined.


(** ** Schemes *)

Lemma ascii_lower_not_upper c :
  ¬ (65 ≤ nat_of_ascii (ascii_lower c) ≤ 90).
Proof.
  unfold ascii_lower.
  destruct ((65 <=? nat_of_ascii c) && (nat_of_ascii c <=? 90)) eqn:E.
  - apply andb_true_iff in E as [H1 H2].
    apply Nat.leb_le in H1, H2.
    rewrite nat_ascii_embedding by lia. lia.
  - intros [H1 H2]. apply andb_false_iff in E as [E|E]; apply Nat.leb_gt in E; lia.
Qed.

(** X7.  A matcher built by [newSchemeMatcher] accepts the lower-cased form
    of every scheme it was given.  Built from ASCII schemes, it rejects
    every request scheme that has an upper-case ASCII letter: [Match] does
    not lower-case the scheme of the request.  The matcher depends only on
    which schemes are given, not on their order or repetition, and the one
    built from no scheme rejects every request. *)
Theorem schemeMatcher_accepts_lower_case_only
    (unicode_ToLower : gostring → gostring) (schemes : list gostring) :
  (∀ v path header,
     v ∈ schemes →
     Match_result (newSchemeMatcher unicode_ToLower schemes)
       (request_for (strings_ToLower unicode_ToLower v) path header) = Some true)
  ∧ (∀ s c path header,
       Forall (λ v, forallb is_ascii7 v = true) schemes →
       c ∈ s → 65 ≤ nat_of_ascii c ≤ 90 →
       Match_result (newSchemeMatcher unicode_ToLower schemes)
         (request_for s path header) = Some false)
  ∧ (∀ schemes',
       (∀ v, v ∈ schemes ↔ v ∈ schemes') →
       newSchemeMatcher unicode_ToLower schemes'
       = newSchemeMatcher unicode_ToLower schemes)
  ∧ (schemes = [] →
     ∀ s path header,
       Match_result (newSchemeMatcher unicode_ToLower schemes)
         (request_for s path header) = Some false).
Proof.
  repeat split.
  - intros v path header Hv. rewrite Match_result_schemeMatcher.
    cbn. f_equal. apply bool_decide_eq_true, newSchemeMatcher_elem. by exists v.
  - intros s c path header Hascii Hc Hup. rewrite Match_result_schemeMatcher.
    cbn. f_equal. apply bool_decide_eq_false. intros Hin.
    apply newSchemeMatcher_elem in Hin as (v & Hv & ->).
    rewrite Forall_forall in Hascii. specialize (Hascii v Hv).
    unfold strings_ToLower in Hc. rewrite Hascii in Hc.
    apply list_elem_of_fmap in Hc as (c' & -> & _).
    by apply (ascii_lower_not_upper c').
  - intros schemes' Hsame.
    assert (E : schemeMatcher_set (newSchemeMatcher unicode_ToLower schemes')
                = schemeMatcher_set (newSchemeMatcher unicode_ToLower schemes)).
    { apply set_eq. intros x. rewrite !newSchemeMatcher_elem.
      split; intros (v & Hv & ->); exists v; split; try done; by apply Hsame. }
    destruct (newSchemeMatcher unicode_ToLower schemes'),
      (newSchemeMatcher unicode_ToLower schemes). cbn in E. by subst.
  - intros -> s path header. rewrite Match_result_schemeMatcher.
    cbn. apply (f_equal Some), bool_decide_eq_false, not_elem_of_empty.
Qed.

Lemma schemeMatcher_accepts_lower_case_only_witness :
  Match_result (newSchemeMatcher id [str "HTTPS"; str "http"])
    (request_for (str "https") (str "/") ∅) = Some true
  ∧ Match_result (newSchemeMatcher id [str "HTTPS"; str "http"])
      (request_for (str "Https") (str "/") ∅) = Some false
  ∧ newSchemeMatcher id [str "http"; str "HTTPS"; str "http"]
    = newSchemeMatcher id [str "HTTPS"; str "http"]
  ∧ Match_result (newSchemeMatcher id []) (request_for (str "http") (str "/") ∅)
    = Some false.
Proof.
  split.
  { apply (proj1 (schemeMatcher_accepts_lower_case_only id [str "HTTPS"; str "http"])
             (str "HTTPS")).
    apply elem_of_cons. by left. }
  split.
  { apply (proj1 (proj2 (schemeMatcher_accepts_lower_case_only id
                           [str "HTTPS"; str "http"]))
             (str "Https") "H"%char).
    - repeat constructor.
    - apply elem_of_cons. by left.
    - vm_compute. lia. }
  split.
  { apply (proj1 (proj2 (proj2 (schemeMatcher_accepts_lower_case_only id
                                  [str "HTTPS"; str "http"])))).
    intros v. rewrite !elem_of_cons. tauto. }
  apply (proj2 (proj2 (proj2 (schemeMatcher_accepts_lower_case_only id [])))).
  reflexivity.
Defined.



(** ** The collection: [Less], [Swap] and the order of equal ranks *)

(** X8.  [Less] is the strict order that [sort.Sort] asks for: no element
    is less than itself, two elements are never less than each other, and
    both "less" and "not less" are transitive; every answer that is
    mentioned is one that [Less] gives without a panic. *)
Theorem Less_is_strict_weak_order (m : Matchers) :
  (∀ i, Less m i i ≠ Some true)
  ∧ (∀ i j, Less m i j = Some true → Less m j i = Some false)
  ∧ (∀ i j k, Less m i j = Some true → Less m j k = Some true →
              Less m i k = Some true)
  ∧ (∀ i j k, Less m i j = Some false → Less m j k = Some false →
              Less m i k = Some false).
Proof.
  unfold Less. repeat split.
  - intros i. destruct (m !! i) as [a|]; [|done]. cbn. intros [= H]. lia.
  - intros i j. destruct (m !! i) as [a|], (m !! j) as [b|]; cbn; try done.
    intros [= H]. f_equal. lia.
  - intros i j k. destruct (m !! i) as [a|], (m !! j) as [b|], (m !! k) as [c|];
      cbn; try done.
    intros [= H1] [= H2]. f_equal. lia.
  - intros i j k. destruct (m !! i) as [a|], (m !! j) as [b|], (m !! k) as [c|];
      cbn; try done.
    intros [= H1] [= H2]. f_equal. lia.
Qed.

Lemma Less_is_strict_weak_order_witness :
  Less [matcherValue _ _ (mkHeaderMatcher ∅);
        matcherValue _ _ (mkPathMatcher (str "/"));
        matcherValue _ _ (mkSchemeMatcher ∅)] 0 2 = Some true.
Proof.
  apply (proj1 (proj2 (proj2 (Less_is_strict_weak_order _))) 0 1 2); reflexivity.
Defined.

Lemma delete_insert_same {A} (l : list A) : ∀ i y, delete i (<[i := y]> l) = delete i l.
Proof.
  induction l as [|x l IH]; intros [|i] y; try done. cbn. f_equal. apply IH.
Qed.

Lemma insert_Permutation {A} (l : list A) i x y :
  l !! i = Some x → <[i := y]> l ≡ₚ y :: delete i l.
Proof.
  intros Hx. rewrite <- (delete_insert_same l i y).
  apply delete_Permutation, list_lookup_insert_eq. by eapply lookup_lt_Some.
Qed.

Lemma Swap_Some (m : Matchers) i j a b :
  m !! i = Some a → m !! j = Some b →
  ∃ m', Swap m i j = Some m'
        ∧ Len m' = Len m
        ∧ m' !! i = Some b
        ∧ m' !! j = Some a
        ∧ (∀ k, k ≠ i → k ≠ j → m' !! k = m !! k)
        ∧ m' ≡ₚ m.
Proof.
  intros Ha Hb. unfold Swap. rewrite Ha, Hb. cbn. eexists. split; [done|].
  assert (Hi := lookup_lt_Some _ _ _ Ha). assert (Hj := lookup_lt_Some _ _ _ Hb).
  split; [unfold Len; by rewrite !length_insert|].
  destruct (decide (i = j)) as [->|Hij].
  { assert (a = b) as -> by congruence.
    rewrite !(list_insert_id m j b) by done. repeat split; try done. }
  split; [by rewrite list_lookup_insert_ne, list_lookup_insert_eq by done|].
  split; [by rewrite list_lookup_insert_eq by (by rewrite length_insert)|].
  split; [intros k Hki Hkj; by rewrite !list_lookup_insert_ne by done|].
  assert (Hb' : <[i := b]> m !! j = Some b) by (by rewrite list_lookup_insert_ne).
  etrans; [apply (insert_Permutation _ j b a Hb')|].
  etrans; [|symmetry; apply (delete_Permutation m i a Ha)].
  apply perm_skip. apply Permutation_cons_inv with b.
  etrans; [symmetry; apply (delete_Permutation _ j b Hb')|].
  apply (insert_Permutation m i a b Ha).
Qed.

(** X9.  [Swap(i, j)] on two indices in range exchanges the elements at [i]
    and [j], leaves every other element and the length as they were, keeps
    the elements of the collection, and is undone by a second [Swap(i, j)];
    it panics exactly when an index is out of range. *)
Theorem Swap_exchanges_two_elements (m : Matchers) i j :
  (i < Len m → j < Len m →
   ∃ m', Swap m i j = Some m'
         ∧ Len m' = Len m
         ∧ m' !! i = m !! j
         ∧ m' !! j = m !! i
         ∧ (∀ k, k ≠ i → k ≠ j → m' !! k = m !! k)
         ∧ m' ≡ₚ m
         ∧ Swap m' i j = Some m)
  ∧ (Swap m i j = None ↔ ¬ (i < Len m ∧ j < Len m)).
Proof.
  unfold Len. split.
  - intros Hi Hj.
    destruct (lookup_lt_is_Some_2 m i Hi) as [a Ha].
    destruct (lookup_lt_is_Some_2 m j Hj) as [b Hb].
    destruct (Swap_Some m i j a b Ha Hb) as (m' & Hs & Hl & Hi' & Hj' & Hk & Hp).
    exists m'. rewrite Ha, Hb. repeat (split; [done|]).
    destruct (Swap_Some m' i j b a Hi' Hj') as (m'' & Hs' & Hl' & Hi'' & Hj'' & Hk' & _).
    rewrite Hs'. f_equal. apply list_eq. intros k.
    destruct (decide (k = i)) as [->|Hki]; [congruence|].
    destruct (decide (k = j)) as [->|Hkj]; [congruence|].
    by rewrite Hk', Hk.
  - unfold Swap. split.
    + intros H [Hi Hj].
      destruct (lookup_lt_is_Some_2 m i Hi) as [a Ha].
      destruct (lookup_lt_is_Some_2 m j Hj) as [b Hb].
      by rewrite Ha, Hb in H.
    + intros H. destruct (m !! i) as [a|] eqn:Ha; [|done].
      destruct (m !! j) as [b|] eqn:Hb; [|done].
      destruct H. split; by eapply lookup_lt_Some.
Qed.

Lemma Swap_exchanges_two_elements_witness :
  ∃ m', Swap [matcherValue _ _ (mkSchemeMatcher ∅);
              matcherValue _ _ (mkPathMatcher (str "/"))] 1 0 = Some m'
        ∧ Len m' = 2
        ∧ m' !! 1 = Some (matcherValue _ _ (mkSchemeMatcher ∅))
        ∧ m' !! 0 = Some (matcherValue _ _ (mkPathMatcher (str "/"))).
Proof.
  destruct (proj1 (Swap_exchanges_two_elements
                     [matcherValue _ _ (mkSchemeMatcher ∅);
                      matcherValue _ _ (mkPathMatcher (str "/"))] 1 0))
    as (m' & Hs & Hl & H1 & H0 & _); [cbn; lia|cbn; lia|].
  exists m'. by repeat split.
Defined.

(** *** Equal ranks keep their order *)

Lemma place_rev_of_rank r x rp : of_rank r (place_rev x rp) = of_rank r (x :: rp).
Proof.
  unfold of_rank. induction rp as [|y rp IH]; [done|]. cbn [place_rev].
  destruct (rank_of x <? rank_of y)%Z eqn:E; [|done].
  apply Z.ltb_lt in E.
  rewrite (filter_cons _ y), IH, !(filter_cons _ x), (filter_cons _ y).
  destruct (decide (rank_of x = r)), (decide (rank_of y = r)); try done. lia.
Qed.

Lemma insertion_loop_of_rank r post : ∀ pre out,
  insertion_loop (length post) (length pre) (pre ++ post) = Some out →
  of_rank r out = of_rank r (pre ++ post).
Proof.
  induction post as [|x post IH]; intros pre out.
  - rewrite app_nil_r. cbn. by intros [= ->].
  - cbn [length insertion_loop]. rewrite insert_down_spec. cbn [mbind option_bind].
    intros Hout.
    specialize (IH (reverse (place_rev x (reverse pre))) out).
    rewrite length_reverse, place_rev_length, length_reverse in IH.
    rewrite (IH Hout). unfold of_rank.
    rewrite !filter_app, filter_reverse. fold (of_rank r (place_rev x (reverse pre))).
    rewrite place_rev_of_rank. unfold of_rank.
    rewrite (filter_cons _ x (reverse pre)), (filter_cons _ x post), filter_reverse.
    destruct (decide (rank_of x = r)).
    + by rewrite reverse_cons, reverse_involutive, <- app_assoc.
    + by rewrite reverse_involutive.
Qed.

Lemma sorted_by_Less_cons x (l : Matchers) :
  sorted_by_Less (x :: l) →
  sorted_by_Less l ∧ ∀ y, y ∈ l → (rank_of x ≤ rank_of y)%Z.
Proof.
  intros Hs. split.
  - intros i j Hij Hj.
    assert (H : Less (x :: l) (S j) (S i) = Some false).
    { apply Hs; [lia|]. unfold Len in *. cbn. lia. }
    exact H.
  - intros y Hy. apply list_elem_of_lookup_1 in Hy as [j Hj].
    assert (H : Less (x :: l) (S j) 0 = Some false).
    { apply Hs; [lia|]. apply lookup_lt_Some in Hj. unfold Len. cbn. lia. }
    rewrite (Less_lookup (x :: l) (S j) 0 y x) in H by done.
    injection H as H. apply bool_decide_eq_false in H. lia.
Qed.

Lemma of_rank_none r (l : Matchers) :
  (∀ y, y ∈ l → rank_of y ≠ r) → of_rank r l = [].
Proof.
  unfold of_rank. induction l as [|x l IH]; intros H; [done|].
  rewrite filter_cons_False by (apply H, elem_of_cons; auto).
  apply IH. intros y Hy. apply H, elem_of_cons. auto.
Qed.

Lemma sorted_groups (l : Matchers) :
  Forall (λ x, rank_of x ∈ [rankAny; rankPath; rankScheme]) l →
  sorted_by_Less l →
  l = of_rank rankAny l ++ of_rank rankPath l ++ of_rank rankScheme l.
Proof.
  induction l as [|x l IH]; intros Hr Hs; [done|].
  apply Forall_cons in Hr as [Hx Hr].
  apply sorted_by_Less_cons in Hs as [Hs Hle].
  specialize (IH Hr Hs).
  rewrite !elem_of_cons, elem_of_nil in Hx. unfold of_rank in *.
  unfold rankAny, rankPath, rankScheme in *.
  assert (H0 : (0 < rank_of x)%Z → filter (λ y, rank_of y = 0%Z) l = []).
  { intros Hlt. apply of_rank_none. intros y Hy. specialize (Hle y Hy). lia. }
  assert (H1 : (1 < rank_of x)%Z → filter (λ y, rank_of y = 1%Z) l = []).
  { intros Hlt. apply of_rank_none. intros y Hy. specialize (Hle y Hy). lia. }
  rewrite !(filter_cons _ x).
  destruct Hx as [Hx|[Hx|[Hx|[]]]]; repeat case_decide; try lia.
  - cbn. by f_equal.
  - rewrite H0 in * by lia. cbn. by f_equal.
  - rewrite H0, H1 in * by lia. cbn. by f_equal.
Qed.

(** X10.  The insertion sort that [sort.Sort] runs on a small collection,
    with the [Len], [Swap] and [Less] of [Matchers], keeps matchers of the
    same rank in the order they had; when all ranks are those of the
    matchers of this package the result is the matchers of rank any, then
    those of rank path, then those of rank scheme, each group in its
    order. *)
Theorem insertionSort_keeps_order_of_equal_ranks (ms : Matchers) :
  ∃ out, insertionSort ms = Some out
         ∧ (∀ r, of_rank r out = of_rank r ms)
         ∧ (Forall (λ x, rank_of x ∈ [rankAny; rankPath; rankScheme]) ms →
            out = of_rank rankAny ms ++ of_rank rankPath ms ++ of_rank rankScheme ms).
Proof.
  destruct (insertionSort_sorts ms) as (out & Hout & Hperm & Hsorted).
  exists out. split; [done|].
  assert (Hst : ∀ r, of_rank r out = of_rank r ms).
  { intros r. unfold insertionSort, Len in Hout. destruct ms as [|x ms].
    { cbn in Hout. by injection Hout as <-. }
    replace (length (x :: ms) - 1) with (length ms) in Hout by (cbn; lia).
    by apply (insertion_loop_of_rank r ms [x]). }
  split; [done|]. intros Hr.
  rewrite <- !Hst. apply sorted_groups; [|done].
  by rewrite Hperm.
Qed.

Lemma insertionSort_keeps_order_of_equal_ranks_witness :
  ∃ out,
    insertionSort [matcherValue _ _ (mkSchemeMatcher ∅);
                   matcherValue _ _ (mkPathMatcher (str "/b"));
                   matcherValue _ _ (mkPathMatcher (str "/a"))] = Some out
    ∧ out = [matcherValue _ _ (mkPathMatcher (str "/b"));
             matcherValue _ _ (mkPathMatcher (str "/a"));
             matcherValue _ _ (mkSchemeMatcher ∅)].
Proof.
  destruct (insertionSort_keeps_order_of_equal_ranks
              [matcherValue _ _ (mkSchemeMatcher ∅);
               matcherValue _ _ (mkPathMatcher (str "/b"));
               matcherValue _ _ (mkPathMatcher (str "/a"))])
    as (out & Hout & _ & Hgroups).
  exists out. split; [exact Hout|]. apply Hgroups.
  repeat constructor.
Defined.

(** *** A collection that is in order already *)

Lemma insert_down_sorted (ms : Matchers) i :
  sorted_by_Less ms → i < Len ms → insert_down i ms = Some ms.
Proof.
  intros Hs Hi. destruct i as [|i]; [done|]. cbn [insert_down].
  by rewrite (Hs i (S i)) by lia.
Qed.

Lemma insertion_loop_sorted (ms : Matchers) :
  sorted_by_Less ms →
  ∀ count i, i + count ≤ Len ms → insertion_loop count i ms = Some ms.
Proof.
  intros Hs. induction count as [|count IH]; intros i Hi; [done|].
  cbn [insertion_loop]. rewrite insert_down_sorted by (done || lia).
  cbn [mbind option_bind]. apply IH. lia.
Qed.

(** X11.  Sorting a collection in which no later matcher is less than an
    earlier one moves nothing: the insertion sort returns the collection as
    it is. *)
Theorem sorted_collection_is_left_alone (ms : Matchers) :
  sorted_by_Less ms → insertionSort ms = Some ms.
Proof.
  intros Hs. unfold insertionSort. destruct ms as [|x ms]; [done|].
  apply insertion_loop_sorted; [done|]. unfold Len. cbn. lia.
Qed.

Lemma sorted_collection_is_left_alone_witness :
  insertionSort [matcherValue _ _ (mkPathMatcher (str "/b"));
                 matcherValue _ _ (mkPathMatcher (str "/a"));
                 matcherValue _ _ (mkSchemeMatcher ∅)]
  = Some [matcherValue _ _ (mkPathMatcher (str "/b"));
          matcherValue _ _ (mkPathMatcher (str "/a"));
          matcherValue _ _ (mkSchemeMatcher ∅)].
Proof.
  apply sorted_collection_is_left_alone.
  intros i j Hij Hj. unfold Len in Hj. cbn in Hj.
  destruct j as [|[|[|j]]]; [lia| | |lia].
  - assert (i = 0) as -> by lia. reflexivity.
  - destruct i as [|[|i]]; [reflexivity|reflexivity|lia].
Defined.
